(** * Wire-format decoding core of [scripts/mitmproxy-addon.py]

    A shallow embedding of the protobuf scanner, the gRPC frame loop and
    the semantic decoders of the traffic analyzer, with the properties
    of its specification stated over that embedding.

    Conventions of the embedding:
    - Python [bytes] is [list byte]; a byte read from a buffer is the
      integer [byte_val b] in [0, 256).
    - Python [int] is unbounded, so decoded values are [Z] without
      wrap-around; buffer offsets are positions, hence [nat].
    - Python [str] is [string]: a literal of the source is the same
      literal here, and a text obtained by [bytes.decode('utf-8')] is
      kept as its (validated) UTF-8 byte sequence.  The decoders only
      compare strings, test them for emptiness and store them, and UTF-8
      is one-to-one on valid sequences, so nothing is lost.
    - a Python [dict] is a [gmap]; a dict with a fixed set of optional
      keys is a record of options.
    - a raised exception is the result [None] of an [option]; a
      [try]/[except] is a [match] on that result.  Where an exception
      leaves a loop that has already written to a list or dict, the
      loop is a [try_fold] whose [Outcome] carries the state reached,
      and the enclosing [except: pass] keeps that state.
    - a [while] loop is a [Fixpoint] on a fuel argument that is an upper
      bound of the number of iterations; the fuel lemmas below show the
      bound is never hit before the loop condition fails. *)

From Stdlib Require Import ZArith List Lia Bool.
From Stdlib Require Import Strings.Byte Strings.String Strings.Ascii.
From stdpp Require Import gmap strings list fin_maps pretty.

(** ** Bytes and slices *)

Definition byte_val (b : byte) : Z := Z.of_N (Byte.to_N b).

Definition byte_of_Z (z : Z) : byte :=
  default x00 (Byte.of_N (Z.to_N (z mod 256))).

(** [data[lo:hi]] for [0 <= lo]; Python clamps a slice at the end of the
    buffer, and so do [take] and [drop]. *)
Definition slice (data : list byte) (lo hi : nat) : list byte :=
  take (hi - lo) (drop lo data).

(** [int.from_bytes(bs, 'big')] *)
Definition int_from_bytes_big (bs : list byte) : Z :=
  fold_left (fun acc b => (acc * 256 + byte_val b)%Z) bs 0%Z.

(** ** [parse_varint] *)

(** The [while offset < len(data)] loop of [parse_varint].  The only
    operation of the body that can raise is the indexing [data[offset]]
    ([IndexError]); [None] stands for that raised error. *)
Fixpoint parse_varint_loop (fuel : nat) (data : list byte)
    (result shift : Z) (offset : nat) {struct fuel} : option (Z * nat) :=
  match fuel with
  | O => Some (result, offset)
  | S fuel' =>
      if bool_decide (offset < length data) then
        match data !! offset with
        | None => None
        | Some byte =>
            let result :=
              Z.lor result (Z.shiftl (Z.land (byte_val byte) 0x7F) shift) in
            let offset := offset + 1 in
            if (Z.land (byte_val byte) 0x80 =? 0)%Z
            then Some (result, offset)
            else parse_varint_loop fuel' data result (shift + 7)%Z offset
        end
      else Some (result, offset)
  end.

Definition parse_varint (data : list byte) (offset : nat)
    : option (Z * nat) :=
  parse_varint_loop (length data - offset) data 0%Z 0%Z offset.

(** ** [parse_proto_fields] *)

(** The third component of a scanned tuple: an [int] for a varint field,
    [bytes] for a length-delimited one. *)
Inductive Value : Type :=
  | VInt (n : Z)
  | VBytes (bs : list byte).

(** [(field_number, wire_type, value)] *)
Definition WireField : Type := Z * Z * Value.

Definition field_number (f : WireField) : Z := f.1.1.
Definition wire_type (f : WireField) : Z := f.1.2.
Definition field_value (f : WireField) : Value := f.2.

(** The body of the loop runs inside [try: ... except Exception: break]:
    an error raised by [parse_varint] ends the loop with the fields
    collected so far.  Slices and integer arithmetic do not raise. *)
Fixpoint parse_proto_fields_loop (fuel : nat) (data : list byte)
    (fields : list WireField) (offset : nat) {struct fuel}
    : list WireField :=
  match fuel with
  | O => fields
  | S fuel' =>
      if bool_decide (offset < length data) then
        match parse_varint data offset with
        | None => fields
        | Some (tag, offset) =>
            let field_number := Z.shiftr tag 3 in
            let wire_type := Z.land tag 0x07 in
            if (wire_type =? 0)%Z then
              match parse_varint data offset with
              | None => fields
              | Some (value, offset) =>
                  parse_proto_fields_loop fuel' data
                    (fields ++ [(field_number, wire_type, VInt value)])
                    offset
              end
            else if (wire_type =? 2)%Z then
              match parse_varint data offset with
              | None => fields
              | Some (len, offset) =>
                  if (Z.of_nat offset + len >? Z.of_nat (length data))%Z
                  then fields
                  else
                    let value := slice data offset (offset + Z.to_nat len) in
                    let offset := offset + Z.to_nat len in
                    parse_proto_fields_loop fuel' data
                      (fields ++ [(field_number, wire_type, VBytes value)])
                      offset
              end
            else if (wire_type =? 1)%Z then
              parse_proto_fields_loop fuel' data fields (offset + 8)
            else if (wire_type =? 5)%Z then
              parse_proto_fields_loop fuel' data fields (offset + 4)
            else fields
        end
      else fields
  end.

Definition parse_proto_fields (data : list byte) : list WireField :=
  parse_proto_fields_loop (length data) data [] 0.

(** ** [bytes.decode('utf-8')] and [bytes.hex()]

    Python's strict UTF-8 codec accepts exactly the well-formed
    sequences of the Unicode standard (no overlong forms, no surrogates,
    nothing above U+10FFFF) and raises [UnicodeDecodeError] otherwise.
    The result [None] stands for the raised error. *)

Definition in_range (lo hi b : Z) : bool := ((lo <=? b) && (b <=? hi))%Z.

Definition is_cont (b : byte) : bool := in_range 0x80 0xBF (byte_val b).

Fixpoint utf8_valid (bs : list byte) : bool :=
  match bs with
  | [] => true
  | b0 :: r1 =>
      let c0 := byte_val b0 in
      if (c0 <? 0x80)%Z then utf8_valid r1
      else if in_range 0xC2 0xDF c0 then
        match r1 with
        | b1 :: r2 => is_cont b1 && utf8_valid r2
        | _ => false
        end
      else if in_range 0xE0 0xEF c0 then
        match r1 with
        | b1 :: b2 :: r3 =>
            in_range (if (c0 =? 0xE0)%Z then 0xA0 else 0x80)
                     (if (c0 =? 0xED)%Z then 0x9F else 0xBF) (byte_val b1)
            && is_cont b2 && utf8_valid r3
        | _ => false
        end
      else if in_range 0xF0 0xF4 c0 then
        match r1 with
        | b1 :: b2 :: b3 :: r4 =>
            in_range (if (c0 =? 0xF0)%Z then 0x90 else 0x80)
                     (if (c0 =? 0xF4)%Z then 0x8F else 0xBF) (byte_val b1)
            && is_cont b2 && is_cont b3 && utf8_valid r4
        | _ => false
        end
      else false
  end.

Definition utf8_decode (bs : list byte) : option string :=
  if utf8_valid bs then Some (string_of_list_byte bs) else None.

Definition hex_digit (n : N) : ascii :=
  ascii_of_N (if (n <? 10)%N then 48 + n else 87 + n).

Fixpoint bytes_hex (bs : list byte) : string :=
  match bs with
  | [] => EmptyString
  | b :: rest =>
      String (hex_digit (Byte.to_N b / 16))
        (String (hex_digit (Byte.to_N b mod 16)) (bytes_hex rest))
  end.

(** Truth value of a [str]: non-empty. *)
Definition str_truthy (s : string) : bool := negb (String.eqb s EmptyString).

(** The test [wt == 2 and isinstance(val, bytes)] that guards every
    nested decode, returning the bytes when it passes. *)
Definition as_bytes (wt : Z) (val : Value) : option (list byte) :=
  match val with
  | VBytes bs => if (wt =? 2)%Z then Some bs else None
  | VInt _ => None
  end.

(** ** Field tables *)

Definition TOOL_FIELD_MAP : gmap Z string :=
  list_to_map
    [ (1, "bash"); (3, "delete"); (4, "glob"); (5, "grep"); (8, "read");
      (9, "todowrite"); (10, "todoread"); (12, "edit"); (13, "list");
      (14, "read_lints"); (15, "mcp"); (16, "semantic_search");
      (17, "create_plan"); (18, "web_search"); (19, "task");
      (20, "list_mcp_resources"); (21, "read_mcp_resource");
      (22, "apply_diff"); (23, "ask_question"); (24, "webfetch");
      (25, "switch_mode"); (26, "exa_search"); (27, "exa_fetch");
      (28, "generate_image"); (29, "record_screen");
      (30, "computer_use") ]%Z.

Definition schema (l : list (Z * string)) : gmap Z string := list_to_map l.

Definition TOOL_ARG_SCHEMA : gmap string (gmap Z string) :=
  list_to_map
    [ ("bash", schema [(1, "command"); (2, "description");
                       (3, "working_directory")]);
      ("delete", schema [(1, "filePath")]);
      ("glob", schema [(1, "pattern"); (2, "path")]);
      ("grep", schema [(1, "pattern"); (2, "path"); (3, "include")]);
      ("read", schema [(1, "filePath"); (2, "offset"); (3, "limit")]);
      ("todowrite", schema [(1, "todos")]);
      ("todoread", schema []);
      ("edit", schema [(1, "filePath"); (2, "oldString");
                       (3, "newString"); (4, "replaceAll")]);
      ("list", schema [(1, "path"); (2, "ignore")]);
      ("read_lints", schema []);
      ("mcp", schema [(1, "provider_identifier"); (2, "tool_name");
                      (3, "tool_call_id"); (4, "args")]);
      ("semantic_search", schema [(1, "query"); (2, "path")]);
      ("create_plan", schema [(1, "plan")]);
      ("web_search", schema [(1, "query")]);
      ("task", schema [(1, "description"); (2, "prompt");
                       (3, "subagent_type")]);
      ("list_mcp_resources", schema [(1, "provider_identifier")]);
      ("read_mcp_resource", schema [(1, "provider_identifier");
                                    (2, "uri")]);
      ("apply_diff", schema [(1, "filePath"); (2, "diff")]);
      ("ask_question", schema [(1, "question")]);
      ("webfetch", schema [(1, "url"); (2, "format")]);
      ("switch_mode", schema [(1, "mode")]);
      ("exa_search", schema [(1, "query")]);
      ("exa_fetch", schema [(1, "url")]);
      ("generate_image", schema [(1, "prompt")]);
      ("record_screen", schema [(1, "duration")]);
      ("computer_use", schema [(1, "action"); (2, "text");
                               (3, "coordinate")]) ]%Z.

(** [FIELD_NAMES] of [parse_agent_message_detailed] *)
Definition FIELD_NAMES : gmap Z string :=
  list_to_map
    [ (1, "text_delta"); (2, "tool_call_started");
      (3, "tool_call_completed"); (4, "thinking_delta");
      (7, "partial_tool_call"); (8, "token_delta"); (13, "heartbeat");
      (14, "turn_ended") ]%Z.

(** ** Exceptions that leave a loop

    The state of a loop whose body may raise: [Done s] when the body (or
    the whole loop) ran to its end with state [s], [Raised s] when an
    exception left it while the state was [s]. *)
Inductive Outcome (S : Type) : Type :=
  | Done (s : S)
  | Raised (s : S).

Arguments Done {S} s.
Arguments Raised {S} s.

(** What an enclosing [try: ... except Exception: pass] leaves behind. *)
Definition outcome_state {S : Type} (o : Outcome S) : S :=
  match o with
  | Done s => s
  | Raised s => s
  end.

Definition outcome_map {S T : Type} (g : S → T) (o : Outcome S)
    : Outcome T :=
  match o with
  | Done s => Done (g s)
  | Raised s => Raised (g s)
  end.

(** A [for] loop over [l] whose body [step] may raise: the first raise
    ends the loop. *)
Fixpoint try_fold {S A : Type} (step : S → A → Outcome S) (l : list A)
    (s : S) : Outcome S :=
  match l with
  | [] => Done s
  | x :: rest =>
      match step s x with
      | Done s' => try_fold step rest s'
      | Raised s' => Raised s'
      end
  end.

(** ** Formatting a field number

    CPython converts an [int] to [str] only up to
    [sys.int_info.default_max_str_digits] decimal digits and raises
    [ValueError] beyond; the addon leaves the limit at its default. *)
Definition INT_MAX_STR_DIGITS : Z := 4300.

(** [str(n)]; [None] is the [ValueError]. *)
Definition int_to_str (n : Z) : option string :=
  if (Z.abs n <? 10 ^ INT_MAX_STR_DIGITS)%Z then Some (pretty n) else None.

(** The text of [f"field_{n}"] when the conversion succeeds. *)
Definition field_text (n : Z) : string := "field_" +:+ pretty n.

(** [f"field_{n}"]; [None] is the [ValueError] of the conversion. *)
Definition field_fallback (n : Z) : option string :=
  match int_to_str n with
  | Some digits => Some ("field_" +:+ digits)
  | None => None
  end.

(** ** [parse_tool_call] *)

(** A value stored in [info["args"]]: a decoded string, the boolean of
    [replaceAll], or the raw scanned value. *)
Inductive ArgVal : Type :=
  | AStr (s : string)
  | ABool (b : bool)
  | AInt (n : Z)
  | ABytes (bs : list byte).

Definition raw_arg (v : Value) : ArgVal :=
  match v with VInt n => AInt n | VBytes bs => ABytes bs end.

(** [aval == 1] *)
Definition value_is_one (v : Value) : bool :=
  match v with VInt n => (n =? 1)%Z | VBytes _ => false end.

Record ToolCall : Type := mkToolCall {
  tool_name : string;
  args : gmap string ArgVal
}.

(** The [for nfn, nwt, nval in nested] loop: [Some nval] is the field at
    which the loop breaks, [None] means the loop ran to completion and
    the [else] clause of the [for] is taken. *)
Fixpoint nested_string (nested : list WireField) : option (list byte) :=
  match nested with
  | [] => None
  | (nfn, nwt, nval) :: rest =>
      match as_bytes nwt nval with
      | Some bs => if (nfn =? 1)%Z then Some bs else nested_string rest
      | None => nested_string rest
      end
  end.

(** Body of the [for afn, awt, aval in arg_fields] loop.  The default
    [f"field_{afn}"] of [arg_schema.get] is an argument of the call, so
    it is formatted for every field, in the schema or not; its
    [ValueError] is raised outside the inner [try] and leaves the loop
    with [info["args"]] as it is.  A failed [decode] inside the [try] is
    caught by the bare [except: pass] and leaves [info["args"]] as it
    was. *)
Definition parse_tool_arg (arg_schema : gmap Z string)
    (args : gmap string ArgVal) (f : WireField)
    : Outcome (gmap string ArgVal) :=
  let '(afn, awt, aval) := f in
  match field_fallback afn with
  | None => Raised args
  | Some fallback =>
      let arg_name := default fallback (arg_schema !! afn) in
      Done
        match as_bytes awt aval with
        | Some bs =>
            match nested_string (parse_proto_fields bs) with
            | Some nval =>
                match utf8_decode nval with
                | Some s => <[arg_name := AStr s]> args
                | None => args
                end
            | None =>
                match utf8_decode bs with
                | Some s => <[arg_name := AStr s]> args
                | None => args
                end
            end
        | None =>
            if (awt =? 0)%Z then
              if String.eqb arg_name "replaceAll"
              then <[arg_name := ABool (value_is_one aval)]> args
              else <[arg_name := raw_arg aval]> args
            else args
        end
  end.

(** The [for fn, wt, val in fields] loop with its [break].  An exception
    of the argument loop reaches the [except Exception: pass] of the
    function, which returns [info] as it is then: the tool name set
    before the loop and the arguments stored so far. *)
Fixpoint parse_tool_call_loop (fields : list WireField) (info : ToolCall)
    : ToolCall :=
  match fields with
  | [] => info
  | (fn, wt, val) :: rest =>
      match TOOL_FIELD_MAP !! fn, as_bytes wt val with
      | Some name, Some bs =>
          if str_truthy name then
            let arg_schema := default ∅ (TOOL_ARG_SCHEMA !! name) in
            let arg_fields := parse_proto_fields bs in
            mkToolCall name
              (outcome_state
                 (try_fold (parse_tool_arg arg_schema) arg_fields
                    (args info)))
          else parse_tool_call_loop rest info
      | _, _ => parse_tool_call_loop rest info
      end
  end.

Definition parse_tool_call (data : list byte) : ToolCall :=
  parse_tool_call_loop (parse_proto_fields data) (mkToolCall "unknown" ∅).

(** ** [parse_tool_call_info] and [parse_partial_tool_call]

    Both build a dict whose keys are among [call_id], [tool_name],
    [args], [args_delta] and [model_call_id]; an absent key is [None]. *)

Record ToolCallInfo : Type := mkInfo {
  call_id : option string;
  info_tool_name : option string;
  info_args : option (gmap string ArgVal);
  args_delta : option string;
  model_call_id : option string
}.

Definition empty_info : ToolCallInfo := mkInfo None None None None None.

(** [info[key] = val.decode('utf-8')] inside [try: ... except: pass] *)
Definition set_decoded (bs : list byte) (old : option string)
    : option string :=
  match utf8_decode bs with
  | Some s => Some s
  | None => old
  end.

Definition parse_tool_call_info_step (info : ToolCallInfo) (f : WireField)
    : ToolCallInfo :=
  let '(fn, wt, val) := f in
  match as_bytes wt val with
  | Some bs =>
      if (fn =? 1)%Z then
        mkInfo (set_decoded bs (call_id info)) (info_tool_name info)
          (info_args info) (args_delta info) (model_call_id info)
      else if (fn =? 2)%Z then
        let tool_info := parse_tool_call bs in
        mkInfo (call_id info) (Some (tool_name tool_info))
          (Some (args tool_info)) (args_delta info) (model_call_id info)
      else if (fn =? 3)%Z then
        mkInfo (call_id info) (info_tool_name info) (info_args info)
          (args_delta info) (set_decoded bs (model_call_id info))
      else info
  | None => info
  end.

Definition parse_tool_call_info (data : list byte) : ToolCallInfo :=
  fold_left parse_tool_call_info_step (parse_proto_fields data) empty_info.

Definition parse_partial_tool_call_step (info : ToolCallInfo)
    (f : WireField) : ToolCallInfo :=
  let '(fn, wt, val) := f in
  match as_bytes wt val with
  | Some bs =>
      if (fn =? 1)%Z then
        mkInfo (set_decoded bs (call_id info)) (info_tool_name info)
          (info_args info) (args_delta info) (model_call_id info)
      else if (fn =? 2)%Z then
        let tool_info := parse_tool_call bs in
        mkInfo (call_id info) (Some (tool_name tool_info))
          (info_args info) (args_delta info) (model_call_id info)
      else if (fn =? 3)%Z then
        mkInfo (call_id info) (info_tool_name info) (info_args info)
          (set_decoded bs (args_delta info)) (model_call_id info)
      else if (fn =? 4)%Z then
        mkInfo (call_id info) (info_tool_name info) (info_args info)
          (args_delta info) (set_decoded bs (model_call_id info))
      else info
  | None => info
  end.

Definition parse_partial_tool_call (data : list byte) : ToolCallInfo :=
  fold_left parse_partial_tool_call_step (parse_proto_fields data)
    empty_info.

(** ** [parse_agent_message_detailed] *)

Inductive Content : Type :=
  | CText (text : string)
  | CInfo (info : ToolCallInfo)
  | CNone.

(** One element of [results]: the keys [type], [content] and, for tool
    calls, [raw_hex]. *)
Record Event : Type := mkEvent {
  ev_type : string;
  ev_content : Content;
  ev_raw_hex : option string
}.

(** Body of [for ifn, iwt, ival in inner_fields]: append a text event
    when the field is number 1, length-delimited, decodable and its
    text is non-empty ([if text:]). *)
Definition text_step (field_name : string) (results : list Event)
    (f : WireField) : list Event :=
  let '(ifn, iwt, ival) := f in
  match as_bytes iwt ival with
  | Some bs =>
      if (ifn =? 1)%Z then
        match utf8_decode bs with
        | Some text =>
            if str_truthy text
            then results ++ [mkEvent field_name (CText text) None]
            else results
        | None => results
        end
      else results
  | None => results
  end.

(** Body of [for ufn, uwt, uval in update_fields]: the name lookup and
    the [if]/[elif] chain.  The default [f"field_{ufn}"] of
    [FIELD_NAMES.get] is formatted for every field; its [ValueError]
    leaves the loop with [results] as it is. *)
Definition update_step (results : list Event) (f : WireField)
    : Outcome (list Event) :=
  let '(ufn, uwt, uval) := f in
  match field_fallback ufn with
  | None => Raised results
  | Some fallback =>
      let field_name := default fallback (FIELD_NAMES !! ufn) in
      let is_text := ((ufn =? 1) || (ufn =? 4) || (ufn =? 8))%Z in
      let is_tool := ((ufn =? 2) || (ufn =? 3))%Z in
      Done
        match as_bytes uwt uval with
        | Some bs =>
            if is_text then
              fold_left (text_step field_name) (parse_proto_fields bs)
                results
            else if is_tool then
              results ++ [mkEvent field_name
                            (CInfo (parse_tool_call_info bs))
                            (Some (bytes_hex bs))]
            else if (ufn =? 7)%Z then
              results ++ [mkEvent field_name
                            (CInfo (parse_partial_tool_call bs))
                            (Some (bytes_hex bs))]
            else if (ufn =? 13)%Z then
              results ++ [mkEvent "heartbeat" CNone None]
            else if (ufn =? 14)%Z then
              results ++ [mkEvent "turn_ended" CNone None]
            else results
        | None =>
            if (ufn =? 13)%Z then
              results ++ [mkEvent "heartbeat" CNone None]
            else if (ufn =? 14)%Z then
              results ++ [mkEvent "turn_ended" CNone None]
            else results
        end
  end.

(** Body of [for fn, wt, val in outer_fields]; an exception of the
    update loop leaves this loop too. *)
Definition outer_step (results : list Event) (f : WireField)
    : Outcome (list Event) :=
  let '(fn, wt, val) := f in
  match as_bytes wt val with
  | Some bs =>
      if (fn =? 1)%Z
      then try_fold update_step (parse_proto_fields bs) results
      else Done results
  | None => Done results
  end.

(** The body of the [try] of [parse_agent_message_detailed]. *)
Definition parse_agent_message_run (data : list byte)
    : Outcome (list Event) :=
  try_fold outer_step (parse_proto_fields data) [].

(** [except Exception: pass] and [return results]: the events appended
    before an exception are returned. *)
Definition parse_agent_message_detailed (data : list byte) : list Event :=
  outcome_state (parse_agent_message_run data).

(** ** The gRPC frame loop

    [modify_stream] (the streaming callback installed by
    [responseheaders]) and [analyze_grpc_stream] share one loop: at
    [offset], read a flag byte and a 4-byte big-endian length, stop when
    the frame does not fit in [data], otherwise cut the payload out and
    advance.  Both start every call at [offset = 0] of the bytes of that
    call. *)

Record Frame : Type := mkFrame {
  flags : byte;
  frame_data : list byte
}.

(** [flags & 0x80] *)
Definition is_trailer (f : Frame) : bool :=
  negb (Z.land (byte_val (flags f)) 0x80 =? 0)%Z.

(** The frames the loop of [analyze_grpc_stream] cuts out of [data], in
    order ([frame_count] is the length of the result).  The index
    [data[offset]] is in range under the loop condition, so the [None]
    branch of the lookup is never taken. *)
Fixpoint grpc_frames_loop (fuel : nat) (data : list byte)
    (frames : list Frame) (offset : nat) {struct fuel} : list Frame :=
  match fuel with
  | O => frames
  | S fuel' =>
      if bool_decide (offset + 5 ≤ length data) then
        match data !! offset with
        | None => frames
        | Some flags =>
            let len :=
              int_from_bytes_big (slice data (offset + 1) (offset + 5)) in
            if (Z.of_nat (offset + 5) + len >? Z.of_nat (length data))%Z
            then frames
            else
              let frame_data :=
                slice data (offset + 5) (offset + 5 + Z.to_nat len) in
              let offset := offset + 5 + Z.to_nat len in
              grpc_frames_loop fuel' data
                (frames ++ [mkFrame flags frame_data]) offset
        end
      else frames
  end.

Definition grpc_frames (data : list byte) : list Frame :=
  grpc_frames_loop (length data) data [] 0.

(** The entries of [flow.metadata] that [modify_stream] updates. *)
Record StreamMeta : Type := mkMeta {
  cursor_stream_bytes : nat;
  cursor_stream_chunks : nat;
  cursor_stream_text : list Content;
  cursor_stream_events : list Event
}.

(** [responseheaders] initialises the entries. *)
Definition initial_meta : StreamMeta := mkMeta 0 0 [] [].

(** [key in info] *)
Definition has_key {A : Type} (o : option A) : bool :=
  match o with Some _ => true | None => false end.

(** Truth value of [event["content"]]: a non-empty string or a non-empty
    dict. *)
Definition content_truthy (c : Content) : bool :=
  match c with
  | CText s => str_truthy s
  | CInfo i =>
      has_key (call_id i) || has_key (info_tool_name i)
      || has_key (info_args i) || has_key (args_delta i)
      || has_key (model_call_id i)
  | CNone => false
  end.

Definition is_text_type (t : string) : bool :=
  String.eqb t "text_delta" || String.eqb t "thinking_delta"
  || String.eqb t "token_delta".

(** Body of [for event in events]. *)
Definition record_event (meta : StreamMeta) (event : Event) : StreamMeta :=
  let events := cursor_stream_events meta ++ [event] in
  let text :=
    if is_text_type (ev_type event) && content_truthy (ev_content event)
    then cursor_stream_text meta ++ [ev_content event]
    else cursor_stream_text meta in
  mkMeta (cursor_stream_bytes meta) (cursor_stream_chunks meta) text events.

(** The [while offset + 5 <= len(data)] loop of [modify_stream], inside
    [try: ... except Exception: pass].  The decoders called in the body
    return a value on every input and the index [data[offset]] is in
    range under the loop condition; the [None] branch of the lookup,
    which is never taken, leaves the metadata as the handler would. *)
Fixpoint modify_stream_loop (fuel : nat) (data : list byte)
    (meta : StreamMeta) (offset : nat) {struct fuel} : StreamMeta :=
  match fuel with
  | O => meta
  | S fuel' =>
      if bool_decide (offset + 5 ≤ length data) then
        match data !! offset with
        | None => meta
        | Some flags =>
            let len :=
              int_from_bytes_big (slice data (offset + 1) (offset + 5)) in
            if (Z.of_nat (offset + 5) + len >? Z.of_nat (length data))%Z
            then meta
            else
              let frame_data :=
                slice data (offset + 5) (offset + 5 + Z.to_nat len) in
              let offset := offset + 5 + Z.to_nat len in
              if negb (Z.land (byte_val flags) 0x80 =? 0)%Z
              then modify_stream_loop fuel' data meta offset
              else
                let events := parse_agent_message_detailed frame_data in
                modify_stream_loop fuel' data
                  (fold_left record_event events meta) offset
        end
      else meta
  end.

(** One call of the stream callback on the chunk [data]; the returned
    bytes are [data] itself, so only the metadata is kept here. *)
Definition modify_stream (meta : StreamMeta) (data : list byte)
    : StreamMeta :=
  let meta :=
    mkMeta (cursor_stream_bytes meta + length data)
      (cursor_stream_chunks meta + 1)
      (cursor_stream_text meta) (cursor_stream_events meta) in
  modify_stream_loop (length data) data meta 0.

(** The transport calls the callback once per chunk, in order. *)
Definition feed_chunks (chunks : list (list byte)) : StreamMeta :=
  fold_left modify_stream chunks initial_meta.

(** ** [extract_text_from_agent_message] *)

(** Whether a text consists of white space only, on its UTF-8 bytes.
    The characters [str.strip()] removes are those of [str.isspace]:
    U+0009 to U+000D, U+001C to U+0020, U+0085, U+00A0, U+1680, U+2000
    to U+200A, U+2028, U+2029, U+202F, U+205F and U+3000. *)
Fixpoint all_space (bs : list byte) : bool :=
  match bs with
  | [] => true
  | b0 :: r1 =>
      let c0 := byte_val b0 in
      if in_range 0x09 0x0D c0 || in_range 0x1C 0x20 c0 then all_space r1
      else if (c0 =? 0xC2)%Z then
        match r1 with
        | b1 :: r2 =>
            ((byte_val b1 =? 0x85) || (byte_val b1 =? 0xA0))%Z
            && all_space r2
        | _ => false
        end
      else if in_range 0xE1 0xE3 c0 then
        match r1 with
        | b1 :: b2 :: r3 =>
            let c1 := byte_val b1 in
            let c2 := byte_val b2 in
            (((c0 =? 0xE1) && (c1 =? 0x9A) && (c2 =? 0x80))
             || ((c0 =? 0xE2) && (c1 =? 0x80)
                 && (in_range 0x80 0x8A c2 || (c2 =? 0xA8) || (c2 =? 0xA9)
                     || (c2 =? 0xAF)))
             || ((c0 =? 0xE2) && (c1 =? 0x81) && (c2 =? 0x9F))
             || ((c0 =? 0xE3) && (c1 =? 0x80) && (c2 =? 0x80)))%Z
            && all_space r3
        | _ => false
        end
      else false
  end.

(** Truth value of [text.strip()]: some character is not white space. *)
Definition strip_truthy (text : string) : bool :=
  negb (all_space (list_byte_of_string text)).

(** Body of [for ifn, iwt, ival in inner_fields]. *)
Definition simple_text_step (texts : list string) (f : WireField)
    : list string :=
  let '(ifn, iwt, ival) := f in
  match as_bytes iwt ival with
  | Some bs =>
      if (ifn =? 1)%Z then
        match utf8_decode bs with
        | Some text => if strip_truthy text then texts ++ [text] else texts
        | None => texts
        end
      else texts
  | None => texts
  end.

(** Body of [for ufn, uwt, uval in update_fields]. *)
Definition simple_update_step (texts : list string) (f : WireField)
    : list string :=
  let '(ufn, uwt, uval) := f in
  match as_bytes uwt uval with
  | Some bs =>
      if ((ufn =? 1) || (ufn =? 4) || (ufn =? 8))%Z
      then fold_left simple_text_step (parse_proto_fields bs) texts
      else texts
  | None => texts
  end.

(** Body of [for fn, wt, val in outer_fields]. *)
Definition simple_outer_step (texts : list string) (f : WireField)
    : list string :=
  let '(fn, wt, val) := f in
  match as_bytes wt val with
  | Some bs =>
      if (fn =? 1)%Z
      then fold_left simple_update_step (parse_proto_fields bs) texts
      else texts
  | None => texts
  end.

Definition extract_text_from_agent_message (data : list byte)
    : list string :=
  fold_left simple_outer_step (parse_proto_fields data) [].


(** ** Request filtering: [should_show] and [request]

    The handlers of [CursorAnalyzer] print to the console and to the
    log file; that output is not part of the state and is not modelled.
    What is modelled is what they compute and store: the counters of
    the analyzer and the entries of [flow.metadata]. *)

(** [needle in hay] on strings *)
Fixpoint str_contains (needle hay : string) : bool :=
  String.prefix needle hay
  || match hay with
     | EmptyString => false
     | String _ rest => str_contains needle rest
     end.

(** The two sets of endpoint names; [any(... in endpoint ...)] does not
    depend on the order of a set, so a list stands for it. *)
Definition NOISE_ENDPOINTS : list string :=
  [ "SyncMerkleSubtreeV2"; "FastUpdateFileV2"; "FastRepoInitHandshakeV2";
    "FastRepoSyncComplete"; "v1/traces"; "GetTeamHooks";
    "GetTeamAdminSettingsOrEmptyIfNotInTeam"; "GetUserPrivacyMode";
    "GetTeamCommands"; "GetCliDownloadUrl" ].

Definition AI_ENDPOINTS : list string :=
  [ "GetUsableModels"; "GetDefaultModelForCli"; "AgentService"; "RunSSE";
    "BidiAppend"; "BidiService"; "NameAgent"; "StreamChat";
    "Conversation" ].

Definition contains_any (names : list string) (endpoint : string) : bool :=
  existsb (λ name, str_contains name endpoint) names.

Definition should_show (filter_mode endpoint : string) : bool :=
  if String.eqb filter_mode "all" then true
  else if String.eqb filter_mode "quiet" then false
  else
    let is_noise := contains_any NOISE_ENDPOINTS endpoint in
    let is_ai := contains_any AI_ENDPOINTS endpoint in
    if String.eqb filter_mode "ai" then is_ai
    else if String.eqb filter_mode "smart" then negb is_noise
    else true.

(** The fields of the analyzer that [request] reads or writes. *)
Record Analyzer : Type := mkAnalyzer {
  request_count : nat;
  filtered_count : nat;
  filter_mode : string
}.

(** The request of a flow and the metadata entries [request] sets. *)
Record Flow : Type := mkFlow {
  host : string;
  path : string;
  cursor_req_id : option nat;
  cursor_show : option bool
}.

(** ["cursor.sh" in flow.request.host] *)
Definition is_cursor_api (flow : Flow) : bool :=
  str_contains "cursor.sh" (host flow).

(** [log_filtered_summary]: prints when the counter is positive, and
    leaves it at 0 in either case. *)
Definition log_filtered_summary (a : Analyzer) : Analyzer :=
  mkAnalyzer (request_count a) 0 (filter_mode a).

Definition is_ai_conversation (endpoint : string) : bool :=
  str_contains "RunSSE" endpoint || str_contains "BidiAppend" endpoint
  || str_contains "BidiService" endpoint.

(** [request]: the analyzer and the flow after the handler has run. *)
Definition request (a : Analyzer) (flow : Flow) : Analyzer * Flow :=
  if negb (is_cursor_api flow) then (a, flow)
  else
    let a := mkAnalyzer (request_count a + 1) (filtered_count a)
               (filter_mode a) in
    let req_id := request_count a in
    let endpoint := path flow in
    let show := should_show (filter_mode a) endpoint in
    let show := if is_ai_conversation endpoint then true else show in
    let flow := mkFlow (host flow) (path flow) (Some req_id) (Some show) in
    if negb show then
      let a := mkAnalyzer (request_count a) (filtered_count a + 1)
                 (filter_mode a) in
      if filtered_count a mod 10 =? 0
      then (log_filtered_summary a, flow)
      else (a, flow)
    else (log_filtered_summary a, flow).

(** The handler run on a sequence of flows, in order. *)
Fixpoint request_all (a : Analyzer) (flows : list Flow)
    : Analyzer * list Flow :=
  match flows with
  | [] => (a, [])
  | flow :: rest =>
      let '(a1, flow1) := request a flow in
      let '(a2, rest2) := request_all a1 rest in
      (a2, flow1 :: rest2)
  end.

(** * Reference encodings

    The source only decodes.  The encoders below are the standard
    protobuf and gRPC encodings, written from their definitions; the
    properties quantify over buffers built with them. *)

(** Standard varint: seven bits per byte, least significant group
    first, high bit set on every byte but the last. *)
Fixpoint encode_varint_fuel (fuel : nat) (v : Z) : list byte :=
  match fuel with
  | O => [byte_of_Z v]
  | S fuel' =>
      if (v <? 0x80)%Z then [byte_of_Z v]
      else byte_of_Z (Z.lor (Z.land v 0x7F) 0x80)
             :: encode_varint_fuel fuel' (Z.shiftr v 7)
  end.

Definition encode_varint (v : Z) : list byte :=
  encode_varint_fuel (Z.to_nat (Z.log2 v)) v.

(** [(field_number << 3) | wire_type] as a varint *)
Definition encode_tag (fn wt : Z) : list byte :=
  encode_varint (Z.lor (Z.shiftl fn 3) wt).

(** A field of a message, by wire type. *)
Inductive Item : Type :=
  | IVarint (fn v : Z)
  | IBytes (fn : Z) (bs : list byte)
  | IFixed64 (fn : Z) (bs : list byte)
  | IFixed32 (fn : Z) (bs : list byte).

Definition item_number (it : Item) : Z :=
  match it with
  | IVarint fn _ | IBytes fn _ | IFixed64 fn _ | IFixed32 fn _ => fn
  end.

(** Field numbers of a valid message are positive, varint values are
    unsigned, fixed-width payloads have their width. *)
Definition valid_item (it : Item) : Prop :=
  (1 ≤ item_number it)%Z ∧
  match it with
  | IVarint _ v => (0 ≤ v)%Z
  | IBytes _ _ => True
  | IFixed64 _ bs => length bs = 8
  | IFixed32 _ bs => length bs = 4
  end.

Definition encode_item (it : Item) : list byte :=
  match it with
  | IVarint fn v => encode_tag fn 0 ++ encode_varint v
  | IBytes fn bs =>
      encode_tag fn 2 ++ encode_varint (Z.of_nat (length bs)) ++ bs
  | IFixed64 fn bs => encode_tag fn 1 ++ bs
  | IFixed32 fn bs => encode_tag fn 5 ++ bs
  end.

Definition encode_fields (items : list Item) : list byte :=
  concat (map encode_item items).

(** The tuple the scanner is expected to produce for a field; the
    source skips fixed-width fields without producing one. *)
Definition item_fields (it : Item) : list WireField :=
  match it with
  | IVarint fn v => [(fn, 0%Z, VInt v)]
  | IBytes fn bs => [(fn, 2%Z, VBytes bs)]
  | IFixed64 _ _ | IFixed32 _ _ => []
  end.

Definition wire_fields (items : list Item) : list WireField :=
  concat (map item_fields items).

Definition is_fixed (it : Item) : bool :=
  match it with
  | IFixed64 _ _ | IFixed32 _ _ => true
  | _ => false
  end.

(** The value [parse_varint] has accumulated after reading all of [bs]:
    the low seven bits of byte [i] at bit position [shift + 7 * i]. *)
Fixpoint varint_acc (bs : list byte) (shift : Z) : Z :=
  match bs with
  | [] => 0%Z
  | b :: rest =>
      Z.lor (Z.shiftl (Z.land (byte_val b) 0x7F) shift)
            (varint_acc rest (shift + 7))
  end.

(** The byte has its continuation bit set. *)
Definition continues (b : byte) : Prop := Z.land (byte_val b) 0x80 ≠ 0%Z.

(** Frame header: flag byte, then the payload length as an unsigned
    32-bit big-endian integer. *)
Definition be32 (n : Z) : list byte :=
  [ byte_of_Z (Z.shiftr n 24); byte_of_Z (Z.shiftr n 16);
    byte_of_Z (Z.shiftr n 8); byte_of_Z n ].

Definition encode_frame (f : Frame) : list byte :=
  flags f :: be32 (Z.of_nat (length (frame_data f))) ++ frame_data f.

Definition encode_frames (fs : list Frame) : list byte :=
  concat (map encode_frame fs).

Definition valid_frame (f : Frame) : Prop :=
  (Z.of_nat (length (frame_data f)) < 2 ^ 32)%Z.

(** * Scanning a suffix

    The loops of the source walk an index through [data].  The functions
    below do the same work on the suffix [drop offset data]; the
    refinement lemmas of the next part show that they compute what the
    index loops compute, and the properties are then proved by
    induction on lists. *)

(** [parse_varint] on the bytes from [offset] on: the value and the
    number of bytes read. *)
Fixpoint varint_scan (rest : list byte) (result shift : Z) : Z * nat :=
  match rest with
  | [] => (result, 0)
  | b :: rest' =>
      let result :=
        Z.lor result (Z.shiftl (Z.land (byte_val b) 0x7F) shift) in
      if (Z.land (byte_val b) 0x80 =? 0)%Z then (result, 1)
      else
        let '(v, n) := varint_scan rest' result (shift + 7)%Z in
        (v, S n)
  end.

(** One iteration of [parse_proto_fields] on a non-empty suffix; [k] is
    the rest of the loop. *)
Definition fields_step (k : list byte → list WireField)
    (rest : list byte) : list WireField :=
  let '(tag, n) := varint_scan rest 0%Z 0%Z in
  let rest1 := drop n rest in
  let fn := Z.shiftr tag 3 in
  let wt := Z.land tag 0x07 in
  if (wt =? 0)%Z then
    let '(value, m) := varint_scan rest1 0%Z 0%Z in
    (fn, wt, VInt value) :: k (drop m rest1)
  else if (wt =? 2)%Z then
    let '(len, m) := varint_scan rest1 0%Z 0%Z in
    let rest2 := drop m rest1 in
    if (len >? Z.of_nat (length rest2))%Z then []
    else
      (fn, wt, VBytes (take (Z.to_nat len) rest2))
        :: k (drop (Z.to_nat len) rest2)
  else if (wt =? 1)%Z then k (drop 8 rest1)
  else if (wt =? 5)%Z then k (drop 4 rest1)
  else [].

(** [parse_proto_fields] on a suffix. *)
Fixpoint fields_scan (fuel : nat) (rest : list byte) : list WireField :=
  match fuel with
  | O => []
  | S fuel' =>
      match rest with
      | [] => []
      | _ :: _ => fields_step (fields_scan fuel') rest
      end
  end.

(** The frame loop on a suffix. *)
Fixpoint frames_scan (fuel : nat) (rest : list byte) : list Frame :=
  match fuel with
  | O => []
  | S fuel' =>
      match rest with
      | fl :: b1 :: b2 :: b3 :: b4 :: body =>
          let len := int_from_bytes_big [b1; b2; b3; b4] in
          if (len >? Z.of_nat (length body))%Z then []
          else
            mkFrame fl (take (Z.to_nat len) body)
              :: frames_scan fuel' (drop (Z.to_nat len) body)
      | _ => []
      end
  end.

(** What [modify_stream] does with one frame. *)
Definition handle_frame (meta : StreamMeta) (f : Frame) : StreamMeta :=
  if is_trailer f then meta
  else fold_left record_event (parse_agent_message_detailed (frame_data f))
         meta.

(** The shape of a tuple the scanner can emit: a non-negative field
    number, and either wire type 0 with an integer or wire type 2 with
    bytes. *)
Definition scanned (f : WireField) : Prop :=
  (0 ≤ field_number f)%Z ∧
  ((wire_type f = 0%Z ∧ ∃ n, (0 ≤ n)%Z ∧ field_value f = VInt n)
   ∨ (wire_type f = 2%Z ∧ ∃ bs, field_value f = VBytes bs)).

(** The events [modify_stream] records for one frame: none for a
    trailer, the decoded events of the payload otherwise. *)
Definition frame_events (f : Frame) : list Event :=
  if is_trailer f then [] else parse_agent_message_detailed (frame_data f).

(** The contents [record_event] adds to [cursor_stream_text]. *)
Definition event_texts (events : list Event) : list Content :=
  concat
    (map (λ e, if is_text_type (ev_type e) && content_truthy (ev_content e)
               then [ev_content e] else [])
       events).

(** A top-level field of a ToolCall message selects a tool when its
    number is in the tool-selector table and its wire type is
    length-delimited. *)
Definition is_selector (f : WireField) : bool :=
  bool_decide (is_Some (TOOL_FIELD_MAP !! field_number f))
  && (wire_type f =? 2)%Z.




(** The contents of the events whose type is one of the three text
    kinds. *)
Definition text_type_contents (events : list Event) : list Content :=
  concat
    (map (λ e, if is_text_type (ev_type e) then [ev_content e] else [])
       events).

(** A content that is a non-empty string. *)
Definition nonempty_text (c : Content) : Prop :=
  ∃ s, c = CText s ∧ s ≠ EmptyString.

(** Whether a field of an InteractionUpdate is one the decoder reacts
    to: numbers 13 and 14 with any wire type the scanner emits, numbers
    1, 2, 3, 4, 7 and 8 when length-delimited. *)
Definition emits_update (it : Item) : bool :=
  match it with
  | IVarint fn _ => ((fn =? 13) || (fn =? 14))%Z
  | IBytes fn _ =>
      ((fn =? 1) || (fn =? 2) || (fn =? 3) || (fn =? 4) || (fn =? 7)
       || (fn =? 8) || (fn =? 13) || (fn =? 14))%Z
  | IFixed64 _ _ | IFixed32 _ _ => false
  end.

(** Whether a top-level field is an InteractionUpdate: number 1,
    length-delimited. *)
Definition is_update_item (it : Item) : bool :=
  match it with
  | IBytes fn _ => (fn =? 1)%Z
  | _ => false
  end.

(** The typing of events: an event of one of the three text kinds
    carries a non-empty string. *)
Definition well_typed_event (e : Event) : Prop :=
  is_text_type (ev_type e) = true → nonempty_text (ev_content e).

(** The name under which sub-field [afn] of a tool is stored: the name
    of the schema, or the synthesized one. *)
Definition arg_name_of (arg_schema : gmap Z string) (afn : Z) : string :=
  default (field_text afn) (arg_schema !! afn).

(** The schema [parse_tool_call] uses for a tool name. *)
Definition schema_of (name : string) : gmap Z string :=
  default ∅ (TOOL_ARG_SCHEMA !! name).

(** An entry [k -> v] of the arguments of a decoded tool call is well
    formed: [k] names a sub-field, and [v] is a string, or the boolean
    of [replaceAll], or an unsigned integer under another name. *)
Definition arg_entry_ok (arg_schema : gmap Z string) (k : string)
    (v : ArgVal) : Prop :=
  (∃ afn, (0 ≤ afn)%Z ∧ k = arg_name_of arg_schema afn)
  ∧ match v with
    | AStr _ => True
    | ABool _ => k = "replaceAll"
    | AInt n => (0 ≤ n)%Z ∧ k ≠ "replaceAll"
    | ABytes _ => False
    end.

(** The texts of a list of events that are not blank. *)
Definition visible_texts (events : list Event) : list string :=
  concat
    (map (λ e, match ev_content e with
               | CText s => if strip_truthy s then [s] else []
               | _ => []
               end)
       events).

(** The simple loop against the detailed one, run by run: a run of the
    detailed body that ends normally shows the texts of the simple
    body; one that raises shows the first of them. *)
Definition texts_agree (texts : list string) (o : Outcome (list Event))
    : Prop :=
  match o with
  | Done events => texts = visible_texts events
  | Raised events => ∃ more, texts = visible_texts events ++ more
  end.

(** * Concrete buffers

    Inputs at which the properties are evaluated. *)

(** [field1 -> (field1 -> (field1 -> "Hello"))] *)
Definition hello_message : list byte :=
  [x0a; x09; x0a; x07; x0a; x05; x48; x65; x6c; x6c; x6f].

(** One data frame carrying [hello_message]. *)
Definition hello_stream : list byte :=
  [x00; x00; x00; x00; x0b] ++ hello_message.

(** Two chunks of whole frames (a data frame, then a trailer) and a
    last chunk holding the first two bytes of a further frame. *)
Definition aligned_frames : list (list Frame) :=
  [[mkFrame x00 hello_message]; [mkFrame x80 [x61]]].

Definition aligned_chunks : list (list byte) :=
  map encode_frames aligned_frames ++ [[x00; x00]].

(** A message whose only field is a fixed64 field number 1. *)
Definition fixed64_message : list Item :=
  [IFixed64 1 [x00; x00; x00; x00; x00; x00; x00; x00]].

(** Tag 0 (field number 0, wire type 0) followed by the value 5. *)
Definition zero_tag_buffer : list byte := [x00; x05].

(** The bytes of ["a.ts"]. *)
Definition a_ts : list byte := [x61; x2e; x74; x73].

(** A ToolCall message with only field 8, whose field 1 is ["a.ts"]. *)
Definition read_message : list byte :=
  encode_fields [IBytes 8 (encode_fields [IBytes 1 a_ts])].

(** The same with the string wrapped in a sub-message of its own. *)
Definition read_message_wrapped : list byte :=
  encode_fields
    [IBytes 8 (encode_fields [IBytes 1 (encode_fields [IBytes 1 a_ts])])].

(** An edit call with [replaceAll] (field 4) set to [v]. *)
Definition edit_message (v : Z) : list byte :=
  encode_fields [IBytes 12 (encode_fields [IVarint 4 v])].

(** A read call followed by an edit call in the same message. *)
Definition two_selectors_message : list byte :=
  encode_fields
    [IBytes 8 (encode_fields [IBytes 1 a_ts]);
     IBytes 12 (encode_fields [IVarint 4 1])].




(** * Bytes *)

Lemma byte_val_range (b : byte) : (0 ≤ byte_val b < 256)%Z.
Proof.
  unfold byte_val. pose proof (Byte.to_N_bounded b). lia.
Qed.

Lemma byte_val_of_Z (z : Z) : byte_val (byte_of_Z z) = (z mod 256)%Z.
Proof.
  unfold byte_val, byte_of_Z.
  assert (Hr : (0 ≤ z mod 256 < 256)%Z) by (apply Z.mod_pos_bound; lia).
  destruct (Byte.of_N (Z.to_N (z mod 256))) as [b|] eqn:E; simpl.
  - apply Byte.to_of_N in E. rewrite E. lia.
  - apply Byte.of_N_None_iff in E. lia.
Qed.

Lemma byte_val_of_Z_small (z : Z) :
  (0 ≤ z < 256)%Z → byte_val (byte_of_Z z) = z.
Proof. intros H. rewrite byte_val_of_Z. apply Z.mod_small. lia. Qed.

Lemma byte_of_Z_val (b : byte) : byte_of_Z (byte_val b) = b.
Proof. destruct b; reflexivity. Qed.

Lemma byte_stop_iff (b : byte) :
  (Z.land (byte_val b) 0x80 =? 0)%Z = (byte_val b <? 0x80)%Z.
Proof. destruct b; reflexivity. Qed.

Lemma byte_low7 (b : byte) :
  Z.land (byte_val b) 0x7F = (byte_val b mod 128)%Z.
Proof. destruct b; reflexivity. Qed.

Lemma lor_split7 (v : Z) :
  Z.lor (Z.land v 0x7F) (Z.shiftl (Z.shiftr v 7) 7) = v.
Proof.
  apply Z.bits_inj'. intros n Hn.
  rewrite Z.lor_spec, Z.land_spec.
  change 127%Z with (Z.ones 7).
  rewrite Z.testbit_ones_nonneg by lia.
  destruct (Z.ltb_spec n 7) as [Hlt|Hge].
  - rewrite Z.shiftl_spec_low by lia.
    by rewrite andb_true_r, orb_false_r.
  - rewrite Z.shiftl_spec, Z.shiftr_spec by lia.
    rewrite andb_false_r. simpl. f_equal. lia.
Qed.

Lemma byte_val_continuation (v : Z) :
  byte_val (byte_of_Z (Z.lor (Z.land v 0x7F) 0x80))
  = Z.lor (Z.land v 0x7F) 0x80.
Proof.
  rewrite byte_val_of_Z.
  change 256%Z with (2 ^ 8)%Z. rewrite <- Z.land_ones by lia.
  rewrite Z.land_lor_distr_l, <- Z.land_assoc. reflexivity.
Qed.

Lemma continuation_low7 (v : Z) :
  Z.land (Z.lor (Z.land v 0x7F) 0x80) 0x7F = Z.land v 0x7F.
Proof.
  rewrite Z.land_lor_distr_l, <- Z.land_assoc.
  change (Z.land 127 127) with 127%Z. change (Z.land 128 127) with 0%Z.
  apply Z.lor_0_r.
Qed.

Lemma continuation_high (v : Z) :
  Z.land (Z.lor (Z.land v 0x7F) 0x80) 0x80 = 0x80%Z.
Proof.
  rewrite Z.land_lor_distr_l, <- Z.land_assoc.
  change (Z.land 127 128) with 0%Z. change (Z.land 128 128) with 128%Z.
  by rewrite Z.land_0_r.
Qed.

(** * The varint decoder *)

(** The index loop reads what [varint_scan] reads from the suffix, with
    any fuel that covers the rest of the buffer. *)
Lemma parse_varint_loop_drop (fuel : nat) :
  ∀ (data : list byte) (result shift : Z) (offset : nat),
    length data - offset ≤ fuel →
    parse_varint_loop fuel data result shift offset
    = Some ((varint_scan (drop offset data) result shift).1,
            offset + (varint_scan (drop offset data) result shift).2).
Proof.
  induction fuel as [|fuel IH]; intros data result shift offset Hfuel.
  - rewrite drop_ge by lia. simpl. do 2 f_equal. lia.
  - simpl. case_bool_decide as Hoff.
    + destruct (lookup_lt_is_Some_2 data offset Hoff) as [b E].
      rewrite E, (drop_S _ _ _ E). simpl.
      destruct (Z.land (byte_val b) 128 =? 0)%Z; [reflexivity|].
      rewrite IH by lia.
      replace (offset + 1) with (S offset) by lia.
      destruct (varint_scan (drop (S offset) data) _ _) as [v n].
      simpl. do 2 f_equal. lia.
    + rewrite drop_ge by lia. simpl. do 2 f_equal. lia.
Qed.

Lemma parse_varint_drop (data : list byte) (offset : nat) :
  parse_varint data offset
  = Some ((varint_scan (drop offset data) 0 0).1,
          offset + (varint_scan (drop offset data) 0 0).2).
Proof. unfold parse_varint. by apply parse_varint_loop_drop. Qed.

(** The fuel of [parse_varint] is never the reason the loop stops: more
    fuel gives the same result. *)
Lemma parse_varint_fuel (data : list byte) (offset fuel : nat) :
  length data - offset ≤ fuel →
  parse_varint_loop fuel data 0 0 offset = parse_varint data offset.
Proof.
  intros H. rewrite parse_varint_drop. by apply parse_varint_loop_drop.
Qed.

Lemma varint_scan_length (rest : list byte) :
  ∀ result shift, (varint_scan rest result shift).2 ≤ length rest.
Proof.
  induction rest as [|b rest IH]; intros result shift; simpl; [lia|].
  destruct (Z.land (byte_val b) 128 =? 0)%Z; simpl; [lia|].
  specialize (IH (Z.lor result (Z.shiftl (Z.land (byte_val b) 127) shift))
                 (shift + 7)%Z).
  destruct (varint_scan rest _ _) as [v n]. simpl in *. lia.
Qed.

Lemma varint_scan_progress (b : byte) (rest : list byte) result shift :
  1 ≤ (varint_scan (b :: rest) result shift).2.
Proof.
  simpl. destruct (Z.land (byte_val b) 128 =? 0)%Z; simpl; [lia|].
  destruct (varint_scan rest _ _) as [v n]. simpl. lia.
Qed.

Lemma varint_scan_nonneg (rest : list byte) :
  ∀ result shift, (0 ≤ result)%Z → (0 ≤ (varint_scan rest result shift).1)%Z.
Proof.
  induction rest as [|b rest IH]; intros result shift Hr; simpl; [done|].
  assert (Hacc : (0 ≤ Z.lor result
                        (Z.shiftl (Z.land (byte_val b) 127) shift))%Z).
  { apply Z.lor_nonneg. split; [done|].
    apply Z.shiftl_nonneg, Z.land_nonneg. right. lia. }
  destruct (Z.land (byte_val b) 128 =? 0)%Z; simpl; [done|].
  specialize (IH _ (shift + 7)%Z Hacc).
  destruct (varint_scan rest _ _) as [v n]. done.
Qed.

(** Reading bytes that all ask for a continuation: the loop runs to the
    end of the buffer and returns the accumulator. *)
Lemma varint_scan_continues (rest : list byte) :
  ∀ result shift,
    Forall continues rest →
    varint_scan rest result shift
    = (Z.lor result (varint_acc rest shift), length rest).
Proof.
  induction rest as [|b rest IH]; intros result shift Hall; simpl.
  - by rewrite Z.lor_0_r.
  - inversion Hall as [|? ? Hb Hrest]; subst.
    unfold continues in Hb. apply Z.eqb_neq in Hb. rewrite Hb.
    rewrite IH by done. by rewrite Z.lor_assoc.
Qed.

Lemma varint_scan_last (v : Z) (post : list byte) result shift :
  (0 ≤ v < 128)%Z →
  varint_scan (byte_of_Z v :: post) result shift
  = (Z.lor result (Z.shiftl v shift), 1).
Proof.
  intros Hv. simpl.
  rewrite byte_stop_iff, byte_low7, byte_val_of_Z_small by lia.
  rewrite (Z.mod_small v 128) by lia.
  destruct (Z.ltb_spec v 128); [done | lia].
Qed.

Lemma log2_small (v : Z) : (0 ≤ v)%Z → (Z.log2 v ≤ 0)%Z → (v < 128)%Z.
Proof.
  intros Hv Hlog. destruct (Z.lt_ge_cases v 2) as [|Hge]; [lia|].
  pose proof (Z.log2_le_mono 2 v Hge) as Hm.
  change (Z.log2 2) with 1%Z in Hm. lia.
Qed.

(** Decoding a standard encoding gives the value back, whatever
    follows. *)
Lemma varint_scan_encode (fuel : nat) :
  ∀ (v : Z) (post : list byte) (result shift : Z),
    (0 ≤ v)%Z → (Z.log2 v ≤ Z.of_nat fuel)%Z →
    varint_scan (encode_varint_fuel fuel v ++ post) result shift
    = (Z.lor result (Z.shiftl v shift),
       length (encode_varint_fuel fuel v)).
Proof.
  induction fuel as [|fuel IH]; intros v post result shift Hv Hlog.
  - simpl. apply varint_scan_last. split; [done|]. by apply log2_small.
  - cbn [encode_varint_fuel].
    destruct (Z.ltb_spec v 128) as [Hlt|Hge].
    + apply varint_scan_last. lia.
    + cbn [app varint_scan length].
      rewrite byte_val_continuation, continuation_low7, continuation_high.
      cbn [Z.eqb].
      rewrite IH.
      * f_equal. rewrite <- Z.lor_assoc. f_equal.
        rewrite (Z.add_comm shift 7).
        rewrite <- (Z.shiftl_shiftl _ 7 shift) by lia.
        rewrite <- Z.shiftl_lor. by rewrite lor_split7.
      * apply Z.shiftr_nonneg. lia.
      * rewrite Z.log2_shiftr by lia. lia.
Qed.

Lemma varint_scan_encode_varint (v : Z) (post : list byte) :
  (0 ≤ v)%Z →
  varint_scan (encode_varint v ++ post) 0 0
  = (v, length (encode_varint v)).
Proof.
  intros Hv. unfold encode_varint.
  rewrite varint_scan_encode; [|done|].
  - by rewrite Z.shiftl_0_r.
  - pose proof (Z.log2_nonneg v). lia.
Qed.

Lemma encode_varint_nonempty (v : Z) : 1 ≤ length (encode_varint v).
Proof.
  unfold encode_varint.
  destruct (Z.to_nat (Z.log2 v)); simpl; [lia|].
  destruct (v <? 128)%Z; simpl; lia.
Qed.

Lemma varint_acc_nonneg (bs : list byte) :
  ∀ shift, (0 ≤ varint_acc bs shift)%Z.
Proof.
  induction bs as [|b bs IH]; intros shift; simpl; [done|].
  apply Z.lor_nonneg. split; [|apply IH].
  apply Z.shiftl_nonneg, Z.land_nonneg. right. lia.
Qed.

(** Beyond the end of the buffer the loop body never runs. *)
Lemma parse_varint_past_end (data : list byte) (offset : nat) :
  length data ≤ offset → parse_varint data offset = Some (0%Z, offset).
Proof.
  intros H. rewrite parse_varint_drop, drop_ge by done. simpl.
  do 2 f_equal. lia.
Qed.

(** C3. Varint decoding on buffer exhaustion.  [parse_varint] returns a
    pair on every buffer and every offset: its only indexing is guarded
    by the loop condition, so it never raises.  From a start offset in
    the buffer, when every byte up to the end of the buffer has its high
    bit set (the buffer ends before a terminating byte), the pair
    returned is the value accumulated from those bytes and the offset
    of the end of the buffer. *)
Theorem parse_varint_exhausted (data : list byte) (offset : nat) :
  is_Some (parse_varint data offset)
  ∧ (offset ≤ length data →
     Forall continues (drop offset data) →
     parse_varint data offset
     = Some (varint_acc (drop offset data) 0, length data)).
Proof.
  rewrite parse_varint_drop. split; [by eexists|].
  intros Hoff Hall. rewrite varint_scan_continues by done.
  cbn [fst snd]. rewrite Z.lor_0_l, length_drop. do 2 f_equal. lia.
Qed.

Lemma parse_varint_exhausted_witness :
  parse_varint [x08; x85; x81] 1 = Some (133%Z, 3).
Proof.
  apply (proj2 (parse_varint_exhausted [x08; x85; x81] 1)).
  - simpl. lia.
  - repeat constructor; unfold continues; vm_compute; discriminate.
Defined.

(** C8. Varint round-trip.  For every [v] in [[0, 2^35)], decoding the
    standard encoding of [v], wherever it sits in a buffer, yields [v]
    and the offset just past the encoding. *)
Theorem varint_roundtrip (v : Z) (pre post : list byte) :
  (0 ≤ v < 2 ^ 35)%Z →
  parse_varint (pre ++ encode_varint v ++ post) (length pre)
  = Some (v, length pre + length (encode_varint v)).
Proof.
  intros [Hv _].
  rewrite parse_varint_drop, drop_app_length.
  by rewrite varint_scan_encode_varint.
Qed.

Lemma varint_roundtrip_witness :
  parse_varint ([x08] ++ encode_varint 300 ++ [x01]) 1
  = Some (300%Z, 1 + length (encode_varint 300)).
Proof. apply (varint_roundtrip 300 [x08] [x01]). lia. Defined.

(** The standard encoding on a few values: 1 is [01], 300 is [ac 02],
    and the largest value below 2^35 takes five bytes. *)
Lemma encode_varint_examples :
  encode_varint 1 = [x01]
  ∧ encode_varint 300 = [xac; x02]
  ∧ encode_varint (2 ^ 35 - 1) = [xff; xff; xff; xff; x7f].
Proof. repeat split; reflexivity. Qed.

(** * The field scanner *)

Lemma gtb_shift (a b c d : Z) :
  (a > b ↔ c > d)%Z → (a >? b)%Z = (c >? d)%Z.
Proof.
  intros H. rewrite !Z.gtb_ltb.
  destruct (Z.ltb_spec b a), (Z.ltb_spec d c); try reflexivity; lia.
Qed.

Lemma parse_proto_fields_loop_drop (fuel : nat) :
  ∀ (data : list byte) (acc : list WireField) (offset : nat),
    parse_proto_fields_loop fuel data acc offset
    = acc ++ fields_scan fuel (drop offset data).
Proof.
  induction fuel as [|fuel IH]; intros data acc offset.
  - simpl. by rewrite app_nil_r.
  - cbn [parse_proto_fields_loop fields_scan]. unfold fields_step.
    case_bool_decide as Hoff.
    + destruct (drop offset data) as [|b0 rest0] eqn:Edrop.
      { apply (f_equal length) in Edrop. rewrite length_drop in Edrop.
        simpl in Edrop. lia. }
      rewrite <- Edrop. clear b0 rest0 Edrop.
      rewrite parse_varint_drop.
      pose proof (varint_scan_length (drop offset data) 0 0) as Hn.
      destruct (varint_scan (drop offset data) 0 0) as [tag n].
      cbn [fst snd] in *.
      rewrite length_drop in Hn.
      rewrite parse_varint_drop, <- drop_drop.
      pose proof (varint_scan_length (drop n (drop offset data)) 0 0) as Hm.
      destruct (varint_scan (drop n (drop offset data)) 0 0) as [x m].
      cbn [fst snd] in *.
      rewrite !length_drop in Hm.
      destruct (Z.land tag 7 =? 0)%Z.
      { rewrite IH, <- !drop_drop, <- app_assoc. reflexivity. }
      destruct (Z.land tag 7 =? 2)%Z.
      { rewrite !length_drop.
        rewrite (gtb_shift _ _ x (Z.of_nat (length data - offset - n - m)))
          by lia.
        destruct (_ >? _)%Z; [by rewrite app_nil_r|].
        rewrite IH, <- !drop_drop, <- app_assoc. unfold slice.
        replace (offset + n + m + Z.to_nat x - (offset + n + m))
          with (Z.to_nat x) by lia.
        rewrite <- !drop_drop. reflexivity. }
      destruct (Z.land tag 7 =? 1)%Z.
      { by rewrite IH, <- !drop_drop. }
      destruct (Z.land tag 7 =? 5)%Z.
      { by rewrite IH, <- !drop_drop. }
      by rewrite app_nil_r.
    + rewrite drop_ge by lia. by rewrite app_nil_r.
Qed.

Lemma parse_proto_fields_scan (data : list byte) :
  parse_proto_fields data = fields_scan (length data) data.
Proof.
  unfold parse_proto_fields. by rewrite parse_proto_fields_loop_drop.
Qed.

(** Every iteration reads at least one byte, so fuel beyond the length
    of the suffix is never used. *)
Lemma fields_scan_fuel (fuel : nat) :
  ∀ (rest : list byte) (fuel' : nat),
    length rest ≤ fuel → length rest ≤ fuel' →
    fields_scan fuel rest = fields_scan fuel' rest.
Proof.
  induction fuel as [|fuel IH]; intros rest fuel' H1 H2.
  - destruct rest; [|simpl in H1; lia]. by destruct fuel'.
  - destruct rest as [|b rest]; [by destruct fuel'|].
    destruct fuel' as [|fuel']; [simpl in H2; lia|].
    cbn [fields_scan]. unfold fields_step.
    pose proof (varint_scan_progress b rest 0 0) as Hp.
    pose proof (varint_scan_length (b :: rest) 0 0) as Hn.
    destruct (varint_scan (b :: rest) 0 0) as [tag n].
    cbn [fst snd] in *.
    set (rest1 := drop n (b :: rest)).
    assert (Hr1 : length rest1 ≤ fuel ∧ length rest1 ≤ fuel').
    { unfold rest1. rewrite length_drop. simpl in *. lia. }
    pose proof (varint_scan_length rest1 0 0) as Hm.
    destruct (varint_scan rest1 0 0) as [x m]. cbn [fst snd] in *.
    destruct (Z.land tag 7 =? 0)%Z.
    { f_equal. apply IH; rewrite length_drop; lia. }
    destruct (Z.land tag 7 =? 2)%Z.
    { destruct (_ >? _)%Z; [done|]. f_equal.
      apply IH; rewrite !length_drop; lia. }
    destruct (Z.land tag 7 =? 1)%Z.
    { apply IH; rewrite !length_drop; lia. }
    destruct (Z.land tag 7 =? 5)%Z; [|done].
    apply IH; rewrite !length_drop; lia.
Qed.

Lemma parse_proto_fields_fuel (data : list byte) (fuel : nat) :
  length data ≤ fuel →
  parse_proto_fields_loop fuel data [] 0 = parse_proto_fields data.
Proof.
  intros H. rewrite parse_proto_fields_scan, parse_proto_fields_loop_drop.
  simpl. by apply fields_scan_fuel.
Qed.

Lemma fields_scan_S (fuel : nat) (rest : list byte) :
  1 ≤ length rest →
  fields_scan (S fuel) rest = fields_step (fields_scan fuel) rest.
Proof. destruct rest; simpl; [lia | done]. Qed.

Lemma fields_scan_nil (fuel : nat) : fields_scan fuel [] = [].
Proof. by destruct fuel. Qed.

(** A tag splits back into field number and wire type. *)
Lemma tag_split (fn wt : Z) :
  (0 ≤ fn)%Z → (0 ≤ wt < 8)%Z →
  let tag := Z.lor (Z.shiftl fn 3) wt in
  (0 ≤ tag)%Z ∧ Z.shiftr tag 3 = fn ∧ Z.land tag 0x07 = wt.
Proof.
  intros Hfn Hwt tag. subst tag. split; [|split].
  - apply Z.lor_nonneg. split; [by apply Z.shiftl_nonneg | lia].
  - rewrite Z.shiftr_lor, Z.shiftr_shiftl_l by lia.
    rewrite Z.sub_diag, Z.shiftl_0_r.
    rewrite (Z.shiftr_div_pow2 wt) by lia.
    rewrite (Z.div_small wt) by (change (2 ^ 3)%Z with 8%Z; lia).
    apply Z.lor_0_r.
  - rewrite Z.land_lor_distr_l.
    change 7%Z with (Z.ones 3).
    rewrite !Z.land_ones by lia.
    rewrite Z.shiftl_mul_pow2 by lia.
    rewrite Z.mod_mul by lia.
    rewrite Z.mod_small by (change (2 ^ 3)%Z with 8%Z; lia).
    apply Z.lor_0_l.
Qed.

(** Rewrite the field number and wire type computed from the tag
    [(fn << 3) | wt] to [fn] and [wt], and decide the wire-type tests. *)
Ltac split_tag fn wt :=
  destruct (tag_split fn wt) as (_ & -> & ->); [lia..|]; cbn [Z.eqb].

Lemma encode_tag_nonempty (fn wt : Z) : 1 ≤ length (encode_tag fn wt).
Proof. apply encode_varint_nonempty. Qed.

Lemma varint_scan_tag (fn wt : Z) (post : list byte) :
  (0 ≤ fn)%Z → (0 ≤ wt < 8)%Z →
  varint_scan (encode_tag fn wt ++ post) 0 0
  = (Z.lor (Z.shiftl fn 3) wt, length (encode_tag fn wt)).
Proof.
  intros Hfn Hwt. unfold encode_tag.
  apply varint_scan_encode_varint. by apply tag_split.
Qed.

(** Scanning a field that heads the suffix: one iteration, one tuple (or
    none for a fixed-width field), and the loop continues just after
    the field. *)
Lemma fields_scan_item (it : Item) (rest : list byte) (fuel : nat) :
  valid_item it →
  fields_scan (S fuel) (encode_item it ++ rest)
  = item_fields it ++ fields_scan fuel rest.
Proof.
  intros [Hfn Hit].
  assert (Hfn0 : (0 ≤ item_number it)%Z) by lia.
  destruct it as [fn v|fn bs|fn bs|fn bs]; cbn [item_number] in *;
    cbn [encode_item item_fields];
    rewrite <- ?app_assoc;
    (rewrite fields_scan_S
       by (rewrite length_app; pose proof (encode_tag_nonempty fn 0);
           pose proof (encode_tag_nonempty fn 1);
           pose proof (encode_tag_nonempty fn 2);
           pose proof (encode_tag_nonempty fn 5); lia));
    unfold fields_step;
    rewrite varint_scan_tag by lia;
    rewrite drop_app_length.
  - split_tag fn 0%Z.
    rewrite varint_scan_encode_varint by done.
    by rewrite drop_app_length.
  - split_tag fn 2%Z.
    rewrite varint_scan_encode_varint by lia.
    rewrite drop_app_length, length_app.
    destruct (Z.gtb_spec (Z.of_nat (length bs))
                (Z.of_nat (length bs + length rest))) as [Hgt|_]; [lia|].
    rewrite Nat2Z.id. by rewrite take_app_length, drop_app_length.
  - split_tag fn 1%Z.
    rewrite <- Hit. by rewrite drop_app_length.
  - split_tag fn 5%Z.
    rewrite <- Hit. by rewrite drop_app_length.
Qed.

Lemma encode_item_nonempty (it : Item) : 1 ≤ length (encode_item it).
Proof.
  destruct it as [fn v|fn bs|fn bs|fn bs]; cbn [encode_item];
    rewrite length_app;
    [ pose proof (encode_tag_nonempty fn 0)
    | pose proof (encode_tag_nonempty fn 2)
    | pose proof (encode_tag_nonempty fn 1)
    | pose proof (encode_tag_nonempty fn 5) ]; lia.
Qed.

Lemma fields_scan_items (items : list Item) :
  ∀ (rest : list byte) (fuel : nat),
    Forall valid_item items →
    length (encode_fields items ++ rest) ≤ fuel →
    fields_scan fuel (encode_fields items ++ rest)
    = wire_fields items ++ fields_scan (length rest) rest.
Proof.
  induction items as [|it items IH]; intros rest fuel Hall Hfuel.
  - by apply fields_scan_fuel.
  - inversion Hall as [|? ? Hit Hitems]; subst.
    unfold encode_fields, wire_fields in *. cbn [map concat] in *.
    rewrite <- !app_assoc in *.
    rewrite length_app in Hfuel.
    pose proof (encode_item_nonempty it) as Hne.
    destruct fuel as [|fuel]; [lia|].
    rewrite fields_scan_item by done.
    rewrite IH; [done..|lia].
Qed.

(** A buffer that starts with complete fields: their tuples, then the
    scan of what follows. *)
Lemma parse_proto_fields_app (items : list Item) (rest : list byte) :
  Forall valid_item items →
  parse_proto_fields (encode_fields items ++ rest)
  = wire_fields items ++ parse_proto_fields rest.
Proof.
  intros Hall. rewrite !parse_proto_fields_scan.
  by apply fields_scan_items.
Qed.

Lemma parse_proto_fields_nil : parse_proto_fields [] = [].
Proof. reflexivity. Qed.

(** A buffer made of complete fields only scans to their tuples. *)
Lemma parse_proto_fields_encoded (items : list Item) :
  Forall valid_item items →
  parse_proto_fields (encode_fields items) = wire_fields items.
Proof.
  intros Hall. rewrite <- (app_nil_r (encode_fields items)).
  rewrite parse_proto_fields_app by done.
  by rewrite parse_proto_fields_nil, app_nil_r.
Qed.

(** C5, as amended.  Scanning a validly encoded message yields, in
    encoding order, exactly one tuple for every varint or
    length-delimited field and none for a fixed64 or fixed32 field; a
    message of [N] fields none of which is fixed-width yields exactly
    [N] tuples. *)
Theorem scan_complete (items : list Item) :
  Forall valid_item items →
  parse_proto_fields (encode_fields items) = wire_fields items
  ∧ (Forall (λ it, is_fixed it = false) items →
     length (parse_proto_fields (encode_fields items)) = length items).
Proof.
  intros Hall.
  pose proof (parse_proto_fields_encoded items Hall) as Hscan.
  split; [done|]. intros Hnofix. rewrite Hscan. clear Hscan Hall.
  induction Hnofix as [|it items Hit _ IH]; [done|].
  unfold wire_fields in *. cbn [map concat].
  rewrite length_app, IH. by destruct it.
Qed.

Lemma scan_complete_witness :
  parse_proto_fields (encode_fields [IBytes 1 [x61]; IVarint 4 1])
  = [(1%Z, 2%Z, VBytes [x61]); (4%Z, 0%Z, VInt 1)]
  ∧ (Forall (λ it, is_fixed it = false) [IBytes 1 [x61]; IVarint 4 1] →
     length (parse_proto_fields (encode_fields [IBytes 1 [x61]; IVarint 4 1]))
     = 2).
Proof.
  apply (scan_complete [IBytes 1 [x61]; IVarint 4 1]).
  repeat constructor; simpl; lia.
Defined.

(** C5, as stated, fails: a valid message of one fixed64 field scans to
    no tuple at all. *)
Lemma scan_complete_fails_on_fixed64 :
  Forall valid_item fixed64_message
  ∧ length fixed64_message = 1
  ∧ parse_proto_fields (encode_fields fixed64_message) = []
  ∧ length (parse_proto_fields (encode_fields fixed64_message))
    ≠ length fixed64_message.
Proof.
  split; [|split; [|split]]; [|reflexivity..|by vm_compute].
  repeat constructor; simpl; lia.
Qed.

(** C4, as amended.  Truncation tolerance.  A buffer made of complete
    fields followed by a length-delimited field whose declared length
    [len] exceeds the bytes that remain scans to exactly the tuples of
    the complete varint and length-delimited fields, that is to what
    the scan of the complete prefix alone yields (a complete fixed64 or
    fixed32 field is skipped there as well): the scanner stops at the
    oversized field and emits nothing for it. *)
Theorem scan_truncated_payload (items : list Item) (fn len : Z)
    (partial : list byte) :
  Forall valid_item items →
  (0 ≤ fn)%Z →
  (Z.of_nat (length partial) < len)%Z →
  parse_proto_fields
    (encode_fields items ++ encode_tag fn 2 ++ encode_varint len ++ partial)
  = wire_fields items
  ∧ parse_proto_fields
      (encode_fields items ++ encode_tag fn 2 ++ encode_varint len ++ partial)
    = parse_proto_fields (encode_fields items).
Proof.
  intros Hall Hfn Hlen.
  assert (Hscan : parse_proto_fields
                    (encode_fields items ++ encode_tag fn 2
                       ++ encode_varint len ++ partial)
                  = wire_fields items).
  { rewrite parse_proto_fields_app by done.
    rewrite <- (app_nil_r (wire_fields items)) at 2. f_equal.
    rewrite parse_proto_fields_scan.
    pose proof (encode_tag_nonempty fn 2) as Hne.
    rewrite length_app.
    destruct (length (encode_tag fn 2)
              + length (encode_varint len ++ partial)) as [|fuel] eqn:E;
      [lia|].
    rewrite fields_scan_S by (rewrite length_app; lia).
    unfold fields_step.
    rewrite varint_scan_tag, drop_app_length by lia.
    split_tag fn 2%Z.
    rewrite varint_scan_encode_varint, drop_app_length by lia.
    destruct (Z.gtb_spec len (Z.of_nat (length partial))); [done | lia]. }
  split; [done|]. rewrite Hscan.
  symmetry. by apply parse_proto_fields_encoded.
Qed.

Lemma scan_truncated_payload_witness :
  parse_proto_fields
    (encode_fields [IVarint 4 1] ++ encode_tag 1 2 ++ encode_varint 5
       ++ [x61; x62])
  = [(4%Z, 0%Z, VInt 1)]
  ∧ parse_proto_fields
      (encode_fields [IVarint 4 1] ++ encode_tag 1 2 ++ encode_varint 5
         ++ [x61; x62])
    = parse_proto_fields (encode_fields [IVarint 4 1]).
Proof.
  apply (scan_truncated_payload [IVarint 4 1] 1 5 [x61; x62]).
  - repeat constructor; simpl; lia.
  - lia.
  - simpl. lia.
Defined.

(** C4, as stated, fails: a fixed64 field is fully encoded before the
    truncation point (a length-delimited field that declares 5 bytes
    where 1 remains), yet the scan of the truncated buffer yields no
    tuple for it. *)
Lemma truncated_scan_omits_fixed64 :
  Forall valid_item fixed64_message
  ∧ length fixed64_message = 1
  ∧ (Z.of_nat (length [x61]) < 5)%Z
  ∧ parse_proto_fields
      (encode_fields fixed64_message ++ encode_tag 1 2 ++ encode_varint 5
         ++ [x61])
    = []
  ∧ length
      (parse_proto_fields
         (encode_fields fixed64_message ++ encode_tag 1 2 ++ encode_varint 5
            ++ [x61]))
    ≠ length fixed64_message.
Proof.
  split; [|split; [|split; [|split]]];
    [|reflexivity|by vm_compute|by vm_compute|by vm_compute].
  repeat constructor; simpl; lia.
Qed.

Lemma fields_scan_scanned (fuel : nat) :
  ∀ rest : list byte, Forall scanned (fields_scan fuel rest).
Proof.
  induction fuel as [|fuel IH]; intros rest; [by constructor|].
  destruct rest as [|b rest]; [by constructor|].
  cbn [fields_scan]. unfold fields_step.
  pose proof (varint_scan_nonneg (b :: rest) 0 0 (Z.le_refl 0)) as Htag.
  destruct (varint_scan (b :: rest) 0 0) as [tag n]. cbn [fst] in Htag.
  set (rest1 := drop n (b :: rest)).
  pose proof (varint_scan_nonneg rest1 0 0 (Z.le_refl 0)) as Hx.
  destruct (varint_scan rest1 0 0) as [x m]. cbn [fst] in Hx.
  assert (Hfn : (0 ≤ Z.shiftr tag 3)%Z) by by apply Z.shiftr_nonneg.
  destruct (Z.eqb_spec (Z.land tag 7) 0) as [E0|_].
  { constructor; [|apply IH]. split; [done|]. left. eauto. }
  destruct (Z.eqb_spec (Z.land tag 7) 2) as [E2|_].
  { destruct (_ >? _)%Z; [by constructor|].
    constructor; [|apply IH]. split; [done|]. right. eauto. }
  destruct (Z.land tag 7 =? 1)%Z; [apply IH|].
  destruct (Z.land tag 7 =? 5)%Z; [apply IH|by constructor].
Qed.

Lemma parse_proto_fields_scanned (data : list byte) :
  Forall scanned (parse_proto_fields data).
Proof. rewrite parse_proto_fields_scan. apply fields_scan_scanned. Qed.

(** C9, as amended.  Every tuple the scanner produces, on any input
    buffer, has a field number that is at least 0 and a wire type in
    {0, 1, 2, 5} (in fact 0 or 2, as fixed-width fields are skipped).
    The scanner does not reject a tag below 8, so field number 0 can be
    emitted. *)
Theorem wire_field_invariant (data : list byte) :
  Forall (λ f, (0 ≤ field_number f)%Z
               ∧ (wire_type f = 0 ∨ wire_type f = 1
                  ∨ wire_type f = 2 ∨ wire_type f = 5)%Z
               ∧ (wire_type f = 0 ∨ wire_type f = 2)%Z)
    (parse_proto_fields data).
Proof.
  eapply Forall_impl; [apply parse_proto_fields_scanned|].
  intros f [Hfn [[Hwt _]|[Hwt _]]]; rewrite Hwt; auto 10.
Qed.

(** C9, as stated, fails: the two bytes [00 05] scan to a tuple whose
    field number is 0. *)
Lemma wire_field_number_zero :
  parse_proto_fields zero_tag_buffer = [(0%Z, 0%Z, VInt 5)]
  ∧ ¬ Forall (λ f, (1 ≤ field_number f)%Z)
        (parse_proto_fields zero_tag_buffer).
Proof.
  split; [reflexivity|]. intros H.
  change (parse_proto_fields zero_tag_buffer)
    with [((0, 0)%Z, VInt 5)] in H.
  apply Forall_inv in H. unfold field_number in H. simpl in H. lia.
Qed.

(** C10.  When the buffer ends right after the tag of a varint field, or
    inside the value of that field (every remaining byte asks for a
    continuation), the scanner still appends the field, with the value
    accumulated from the bytes that are there (0 when there are none).
    The output is the one of a complete buffer whose last field encodes
    that accumulated value, so the truncation cannot be seen in it. *)
Theorem scan_truncated_varint (items : list Item) (fn : Z)
    (partial : list byte) :
  Forall valid_item items →
  (1 ≤ fn)%Z →
  Forall continues partial →
  parse_proto_fields (encode_fields items ++ encode_tag fn 0 ++ partial)
  = wire_fields items ++ [(fn, 0%Z, VInt (varint_acc partial 0))]
  ∧ parse_proto_fields (encode_fields items ++ encode_tag fn 0)
    = wire_fields items ++ [(fn, 0%Z, VInt 0)]
  ∧ parse_proto_fields (encode_fields items ++ encode_tag fn 0 ++ partial)
    = parse_proto_fields
        (encode_fields (items ++ [IVarint fn (varint_acc partial 0)])).
Proof.
  intros Hall Hfn Hcont.
  assert (Hscan : ∀ p, Forall continues p →
            parse_proto_fields (encode_fields items ++ encode_tag fn 0 ++ p)
            = wire_fields items ++ [(fn, 0%Z, VInt (varint_acc p 0))]).
  { intros p Hp. rewrite parse_proto_fields_app by done. f_equal.
    rewrite parse_proto_fields_scan.
    pose proof (encode_tag_nonempty fn 0) as Hne.
    rewrite length_app.
    destruct (length (encode_tag fn 0) + length p) as [|fuel] eqn:E; [lia|].
    rewrite fields_scan_S by (rewrite length_app; lia).
    unfold fields_step.
    rewrite varint_scan_tag, drop_app_length by lia.
    split_tag fn 0%Z.
    rewrite varint_scan_continues by done.
    rewrite Z.lor_0_l, drop_ge by done.
    by rewrite fields_scan_nil. }
  split; [by apply Hscan|]. split.
  - specialize (Hscan [] (List.Forall_nil _)).
    by rewrite app_nil_r in Hscan.
  - rewrite Hscan by done.
    rewrite parse_proto_fields_encoded.
    + unfold wire_fields. by rewrite map_app, concat_app.
    + apply Forall_app. split; [done|]. constructor; [|done].
      split; [simpl; lia|]. apply varint_acc_nonneg.
Qed.

Lemma scan_truncated_varint_witness :
  parse_proto_fields (encode_fields [IBytes 1 [x61]] ++ encode_tag 2 0 ++ [x85])
  = [(1%Z, 2%Z, VBytes [x61]); (2%Z, 0%Z, VInt 5)]
  ∧ parse_proto_fields (encode_fields [IBytes 1 [x61]] ++ encode_tag 2 0)
    = [(1%Z, 2%Z, VBytes [x61]); (2%Z, 0%Z, VInt 0)]
  ∧ parse_proto_fields (encode_fields [IBytes 1 [x61]] ++ encode_tag 2 0 ++ [x85])
    = parse_proto_fields
        (encode_fields ([IBytes 1 [x61]] ++ [IVarint 2 5])).
Proof.
  apply (scan_truncated_varint [IBytes 1 [x61]] 2 [x85]).
  - repeat constructor; simpl; lia.
  - lia.
  - repeat constructor; unfold continues; vm_compute; discriminate.
Defined.

(** * The frame loop *)

Lemma drop_5_cons (data : list byte) (offset : nat) :
  offset + 5 ≤ length data →
  ∃ fl b1 b2 b3 b4,
    drop offset data = fl :: b1 :: b2 :: b3 :: b4 :: drop (offset + 5) data.
Proof.
  intros H. rewrite <- drop_drop.
  assert (Hl : 5 ≤ length (drop offset data)) by (rewrite length_drop; lia).
  destruct (drop offset data) as [|fl [|b1 [|b2 [|b3 [|b4 body]]]]];
    simpl in Hl; try lia.
  by exists fl, b1, b2, b3, b4.
Qed.

Lemma grpc_frames_loop_drop (fuel : nat) :
  ∀ (data : list byte) (acc : list Frame) (offset : nat),
    grpc_frames_loop fuel data acc offset
    = acc ++ frames_scan fuel (drop offset data).
Proof.
  induction fuel as [|fuel IH]; intros data acc offset.
  - simpl. by rewrite app_nil_r.
  - cbn [grpc_frames_loop frames_scan].
    case_bool_decide as Hoff.
    + destruct (drop_5_cons data offset Hoff)
        as (fl & b1 & b2 & b3 & b4 & Edrop).
      assert (Hfl : data !! offset = Some fl).
      { rewrite <- (Nat.add_0_r offset), <- lookup_drop. by rewrite Edrop. }
      rewrite Hfl, Edrop.
      assert (Hhdr : slice data (offset + 1) (offset + 5) = [b1; b2; b3; b4]).
      { unfold slice. rewrite <- drop_drop, Edrop.
        replace (offset + 5 - (offset + 1)) with 4 by lia. done. }
      rewrite Hhdr.
      set (len := int_from_bytes_big [b1; b2; b3; b4]).
      rewrite length_drop.
      rewrite (gtb_shift _ _ len (Z.of_nat (length data - (offset + 5))))
        by lia.
      destruct (_ >? _)%Z; [by rewrite app_nil_r|].
      rewrite IH, <- app_assoc. unfold slice.
      replace (offset + 5 + Z.to_nat len - (offset + 5))
        with (Z.to_nat len) by lia.
      by rewrite <- (drop_drop _ _ (offset + 5)).
    + assert (Hl : length (drop offset data) < 5)
        by (rewrite length_drop; lia).
      destruct (drop offset data) as [|fl [|b1 [|b2 [|b3 [|b4 body]]]]];
        simpl in Hl; try lia; by rewrite app_nil_r.
Qed.

Lemma grpc_frames_scan (data : list byte) :
  grpc_frames data = frames_scan (length data) data.
Proof. unfold grpc_frames. by rewrite grpc_frames_loop_drop. Qed.

(** Every iteration consumes a header, so fuel beyond the length of the
    suffix is never used. *)
Lemma frames_scan_fuel (fuel : nat) :
  ∀ (rest : list byte) (fuel' : nat),
    length rest ≤ fuel → length rest ≤ fuel' →
    frames_scan fuel rest = frames_scan fuel' rest.
Proof.
  induction fuel as [|fuel IH]; intros rest fuel' H1 H2.
  - destruct rest; [|simpl in H1; lia]. by destruct fuel'.
  - destruct fuel' as [|fuel'].
    { destruct rest; [done | simpl in H2; lia]. }
    destruct rest as [|fl [|b1 [|b2 [|b3 [|b4 body]]]]]; try done.
    cbn [frames_scan]. destruct (_ >? _)%Z; [done|]. f_equal.
    simpl in H1, H2. apply IH; rewrite length_drop; lia.
Qed.

Lemma grpc_frames_fuel (data : list byte) (fuel : nat) :
  length data ≤ fuel →
  grpc_frames_loop fuel data [] 0 = grpc_frames data.
Proof.
  intros H. rewrite grpc_frames_scan, grpc_frames_loop_drop. simpl.
  by apply frames_scan_fuel.
Qed.

Lemma int_from_bytes_be32 (n : Z) :
  (0 ≤ n < 2 ^ 32)%Z → int_from_bytes_big (be32 n) = n.
Proof.
  intros Hn. unfold be32, int_from_bytes_big. cbn [fold_left].
  rewrite !byte_val_of_Z, !Z.shiftr_div_pow2 by lia.
  change (2 ^ 24)%Z with 16777216%Z. change (2 ^ 16)%Z with 65536%Z.
  change (2 ^ 8)%Z with 256%Z. change (2 ^ 32)%Z with 4294967296%Z in Hn.
  Z.div_mod_to_equations. lia.
Qed.

Lemma frames_scan_frame (f : Frame) (rest : list byte) (fuel : nat) :
  valid_frame f →
  frames_scan (S fuel) (encode_frame f ++ rest) = f :: frames_scan fuel rest.
Proof.
  intros Hf. unfold valid_frame in Hf. destruct f as [fl payload].
  unfold encode_frame. cbn [flags frame_data] in *.
  change (be32 (Z.of_nat (length payload)))
    with [byte_of_Z (Z.shiftr (Z.of_nat (length payload)) 24);
          byte_of_Z (Z.shiftr (Z.of_nat (length payload)) 16);
          byte_of_Z (Z.shiftr (Z.of_nat (length payload)) 8);
          byte_of_Z (Z.of_nat (length payload))].
  cbn [app frames_scan].
  fold (be32 (Z.of_nat (length payload))).
  rewrite int_from_bytes_be32 by lia.
  rewrite length_app.
  destruct (Z.gtb_spec (Z.of_nat (length payload))
              (Z.of_nat (length payload + length rest))); [lia|].
  by rewrite Nat2Z.id, take_app_length, drop_app_length.
Qed.

Lemma encode_frame_length (f : Frame) : 5 ≤ length (encode_frame f).
Proof. unfold encode_frame. simpl. lia. Qed.

Lemma frames_scan_frames (fs : list Frame) :
  ∀ (rest : list byte) (fuel : nat),
    Forall valid_frame fs →
    length (encode_frames fs ++ rest) ≤ fuel →
    frames_scan fuel (encode_frames fs ++ rest)
    = fs ++ frames_scan (length rest) rest.
Proof.
  induction fs as [|f fs IH]; intros rest fuel Hall Hfuel.
  - by apply frames_scan_fuel.
  - inversion Hall as [|? ? Hf Hfs]; subst.
    unfold encode_frames in *. cbn [map concat] in *.
    rewrite <- !app_assoc in *.
    rewrite length_app in Hfuel.
    pose proof (encode_frame_length f) as Hne.
    destruct fuel as [|fuel]; [lia|].
    rewrite frames_scan_frame by done.
    cbn [app]. f_equal. apply IH; [done|lia].
Qed.

(** Complete frames at the head of the data of a call are cut out in
    order, and the loop goes on with what follows them. *)
Lemma grpc_frames_app (fs : list Frame) (rest : list byte) :
  Forall valid_frame fs →
  grpc_frames (encode_frames fs ++ rest) = fs ++ grpc_frames rest.
Proof.
  intros Hall. rewrite !grpc_frames_scan. by apply frames_scan_frames.
Qed.

(** The loop of [modify_stream] handles, in order, the frames that the
    loop of [analyze_grpc_stream] cuts out of the same bytes. *)
Lemma modify_stream_loop_frames (fuel : nat) :
  ∀ (data : list byte) (acc : list Frame) (meta : StreamMeta)
    (offset : nat),
    modify_stream_loop fuel data (fold_left handle_frame acc meta) offset
    = fold_left handle_frame (grpc_frames_loop fuel data acc offset) meta.
Proof.
  induction fuel as [|fuel IH]; intros data acc meta offset; [done|].
  cbn [modify_stream_loop grpc_frames_loop].
  case_bool_decide; [|done].
  destruct (data !! offset) as [fl|]; [|done].
  destruct (_ >? _)%Z; [done|].
  rewrite <- IH, fold_left_app. cbn [fold_left].
  unfold handle_frame at 3, is_trailer. cbn [flags frame_data].
  by destruct (negb _).
Qed.

Lemma record_events_events (events : list Event) :
  ∀ meta,
    cursor_stream_events (fold_left record_event events meta)
    = cursor_stream_events meta ++ events.
Proof.
  induction events as [|e events IH]; intros meta; simpl.
  - by rewrite app_nil_r.
  - rewrite IH. simpl. by rewrite <- app_assoc.
Qed.

Lemma record_events_text (events : list Event) :
  ∀ meta,
    cursor_stream_text (fold_left record_event events meta)
    = cursor_stream_text meta ++ event_texts events.
Proof.
  induction events as [|e events IH]; intros meta; simpl.
  - by rewrite app_nil_r.
  - rewrite IH. unfold event_texts. simpl.
    destruct (is_text_type (ev_type e) && content_truthy (ev_content e));
      simpl; [by rewrite <- app_assoc | done].
Qed.

Lemma handle_frames_events (fs : list Frame) :
  ∀ meta,
    cursor_stream_events (fold_left handle_frame fs meta)
    = cursor_stream_events meta ++ concat (map frame_events fs).
Proof.
  induction fs as [|f fs IH]; intros meta; simpl.
  - by rewrite app_nil_r.
  - rewrite IH. unfold handle_frame, frame_events.
    destruct (is_trailer f); simpl; [done|].
    by rewrite record_events_events, <- app_assoc.
Qed.

Lemma handle_frames_text (fs : list Frame) :
  ∀ meta,
    cursor_stream_text (fold_left handle_frame fs meta)
    = cursor_stream_text meta
      ++ concat (map (λ f, event_texts (frame_events f)) fs).
Proof.
  induction fs as [|f fs IH]; intros meta; simpl.
  - by rewrite app_nil_r.
  - rewrite IH. unfold handle_frame, frame_events.
    destruct (is_trailer f); simpl; [done|].
    by rewrite record_events_text, <- app_assoc.
Qed.

Lemma modify_stream_frames (meta : StreamMeta) (data : list byte) :
  modify_stream meta data
  = fold_left handle_frame (grpc_frames data)
      (mkMeta (cursor_stream_bytes meta + length data)
         (cursor_stream_chunks meta + 1)
         (cursor_stream_text meta) (cursor_stream_events meta)).
Proof.
  unfold modify_stream, grpc_frames.
  by rewrite <- modify_stream_loop_frames.
Qed.

(** Fuel beyond the length of the chunk does not change what the
    callback records. *)
Lemma modify_stream_fuel (meta : StreamMeta) (data : list byte)
    (fuel : nat) :
  length data ≤ fuel →
  modify_stream_loop fuel data meta 0
  = modify_stream_loop (length data) data meta 0.
Proof.
  intros H.
  change meta with (fold_left handle_frame [] meta).
  rewrite !modify_stream_loop_frames.
  rewrite (grpc_frames_fuel data fuel H).
  by rewrite (grpc_frames_fuel data (length data)).
Qed.

(** A call is stateless as far as framing goes: what it records is
    determined by the frames that lie wholly in its own chunk. *)
Lemma modify_stream_events (meta : StreamMeta) (data : list byte) :
  cursor_stream_events (modify_stream meta data)
  = cursor_stream_events meta ++ concat (map frame_events (grpc_frames data)).
Proof. by rewrite modify_stream_frames, handle_frames_events. Qed.

Lemma modify_stream_text (meta : StreamMeta) (data : list byte) :
  cursor_stream_text (modify_stream meta data)
  = cursor_stream_text meta
    ++ concat (map (λ f, event_texts (frame_events f)) (grpc_frames data)).
Proof. by rewrite modify_stream_frames, handle_frames_text. Qed.

Lemma fold_modify_stream_events (chunks : list (list byte)) :
  ∀ meta,
    cursor_stream_events (fold_left modify_stream chunks meta)
    = cursor_stream_events meta
      ++ concat (map frame_events (concat (map grpc_frames chunks))).
Proof.
  induction chunks as [|c chunks IH]; intros meta; simpl.
  - by rewrite app_nil_r.
  - rewrite IH, modify_stream_events, map_app, concat_app.
    by rewrite <- app_assoc.
Qed.

Lemma fold_modify_stream_text (chunks : list (list byte)) :
  ∀ meta,
    cursor_stream_text (fold_left modify_stream chunks meta)
    = cursor_stream_text meta
      ++ concat (map (λ f, event_texts (frame_events f))
                   (concat (map grpc_frames chunks))).
Proof.
  induction chunks as [|c chunks IH]; intros meta; simpl.
  - by rewrite app_nil_r.
  - rewrite IH, modify_stream_text, map_app, concat_app.
    by rewrite <- app_assoc.
Qed.

(** Chunks that are whole frames, followed by any last chunk. *)
Lemma grpc_frames_aligned (fss : list (list Frame)) (last : list byte) :
  Forall (Forall valid_frame) fss →
  concat (map grpc_frames (map encode_frames fss ++ [last]))
  = grpc_frames (concat (map encode_frames fss ++ [last])).
Proof.
  intros Hall. induction Hall as [|fs fss Hfs _ IH]; simpl.
  - by rewrite !app_nil_r.
  - rewrite IH. rewrite (grpc_frames_app fs (concat _)) by done.
    rewrite <- (app_nil_r (encode_frames fs)) at 1.
    rewrite grpc_frames_app by done.
    change (grpc_frames []) with (@nil Frame). by rewrite app_nil_r.
Qed.

(** C1, as amended.  The frame loop starts every call at the first byte
    of that call and keeps nothing between calls.  Feeding a stream in
    one call yields the same ordered frames, recorded events and
    recorded texts as feeding it in several calls whenever every split
    falls on a frame boundary, that is, every chunk but the last is a
    whole number of complete frames; the frames of a call are those
    that lie wholly in its chunk. *)
Theorem chunking_on_frame_boundaries (fss : list (list Frame))
    (last : list byte) :
  Forall (Forall valid_frame) fss →
  let chunks := map encode_frames fss ++ [last] in
  concat (map grpc_frames chunks) = grpc_frames (concat chunks)
  ∧ grpc_frames (concat chunks) = concat fss ++ grpc_frames last
  ∧ cursor_stream_events (feed_chunks chunks)
    = cursor_stream_events (feed_chunks [concat chunks])
  ∧ cursor_stream_text (feed_chunks chunks)
    = cursor_stream_text (feed_chunks [concat chunks]).
Proof.
  intros Hall chunks.
  pose proof (grpc_frames_aligned fss last Hall) as Hal.
  fold chunks in Hal.
  split; [done|]. split; [|split].
  - rewrite <- Hal. subst chunks. clear Hal.
    induction Hall as [|fs fss Hfs _ IH]; simpl.
    + by rewrite app_nil_r.
    + rewrite IH, <- app_assoc. f_equal.
      rewrite <- (app_nil_r (encode_frames fs)).
      rewrite grpc_frames_app by done.
      change (grpc_frames []) with (@nil Frame). by rewrite app_nil_r.
  - unfold feed_chunks. rewrite !fold_modify_stream_events.
    cbn [map concat]. by rewrite app_nil_r, Hal.
  - unfold feed_chunks. rewrite !fold_modify_stream_text.
    cbn [map concat]. by rewrite app_nil_r, Hal.
Qed.

Lemma chunking_on_frame_boundaries_witness :
  concat (map grpc_frames aligned_chunks)
  = grpc_frames (concat aligned_chunks)
  ∧ grpc_frames (concat aligned_chunks)
    = concat aligned_frames ++ grpc_frames [x00; x00]
  ∧ cursor_stream_events (feed_chunks aligned_chunks)
    = cursor_stream_events (feed_chunks [concat aligned_chunks])
  ∧ cursor_stream_text (feed_chunks aligned_chunks)
    = cursor_stream_text (feed_chunks [concat aligned_chunks]).
Proof.
  apply (chunking_on_frame_boundaries aligned_frames [x00; x00]).
  repeat constructor; unfold valid_frame; simpl; lia.
Defined.

(** C1, as stated, fails: a data frame split after its third byte is
    lost.  Fed in one call the stream yields one frame and one event;
    fed as two chunks it yields none, the bytes of the incomplete frame
    being dropped at the end of the first call. *)
Lemma chunking_loses_split_frame :
  grpc_frames hello_stream = [mkFrame x00 hello_message]
  ∧ grpc_frames (take 3 hello_stream) ++ grpc_frames (drop 3 hello_stream)
    = []
  ∧ cursor_stream_events (feed_chunks [hello_stream])
    = [mkEvent "text_delta" (CText "Hello") None]
  ∧ cursor_stream_events
      (feed_chunks [take 3 hello_stream; drop 3 hello_stream]) = []
  ∧ cursor_stream_events
      (feed_chunks [take 3 hello_stream; drop 3 hello_stream])
    ≠ cursor_stream_events (feed_chunks [hello_stream]).
Proof. repeat split; try reflexivity. by vm_compute. Qed.

(** * Loops with exceptions *)

Lemma try_fold_app {S A : Type} (step : S → A → Outcome S)
    (l1 l2 : list A) (s : S) :
  try_fold step (l1 ++ l2) s
  = match try_fold step l1 s with
    | Done s' => try_fold step l2 s'
    | Raised s' => Raised s'
    end.
Proof.
  revert s. induction l1 as [|x l1 IH]; intros s; [done|].
  cbn [app try_fold]. destruct (step s x); [apply IH | done].
Qed.

(** A loop whose body only appends to its list can be run from the empty
    list. *)
Lemma try_fold_appends {A B : Type} (step : list B → A → Outcome (list B))
    (l : list A) :
  (∀ acc x, step acc x = outcome_map (app acc) (step [] x)) →
  ∀ acc, try_fold step l acc = outcome_map (app acc) (try_fold step l []).
Proof.
  intros Hstep. induction l as [|x l IH]; intros acc; cbn [try_fold].
  - simpl. by rewrite app_nil_r.
  - rewrite (Hstep acc x). destruct (step [] x) as [ev|ev]; simpl; [|done].
    rewrite (IH (acc ++ ev)), (IH ev).
    destruct (try_fold step l []); simpl; by rewrite app_assoc.
Qed.

(** What every run of the body preserves holds of the state the loop
    leaves behind, raised or not. *)
Lemma try_fold_invariant {S A : Type} (P : S → Prop)
    (step : S → A → Outcome S) (l : list A) :
  (∀ s x, x ∈ l → P s → P (outcome_state (step s x))) →
  ∀ s, P s → P (outcome_state (try_fold step l s)).
Proof.
  induction l as [|x l IH]; intros Hstep s Hs; [done|].
  cbn [try_fold]. pose proof (Hstep s x (list_elem_of_here _ _) Hs) as Hx.
  destruct (step s x) as [s'|s']; [|done].
  apply IH; [|done]. intros s0 y Hy. apply Hstep. by right.
Qed.

(** What follows an element at which the body raises is never run. *)
Lemma try_fold_raise {S A : Type} (step : S → A → Outcome S)
    (l1 l2 : list A) (x : A) (s : S) :
  (∀ s', step s' x = Raised s') →
  outcome_state (try_fold step (l1 ++ x :: l2) s)
  = outcome_state (try_fold step l1 s).
Proof.
  intros Hx. rewrite try_fold_app.
  destruct (try_fold step l1 s) as [s'|s']; [|done].
  cbn [try_fold]. by rewrite Hx.
Qed.

(** A loop none of whose runs raises is a plain fold. *)
Lemma try_fold_all_done {S A : Type} (step : S → A → Outcome S)
    (l : list A) :
  (∀ s x, x ∈ l → ∃ s', step s x = Done s') →
  ∀ s, try_fold step l s
       = Done (fold_left (λ s x, outcome_state (step s x)) l s).
Proof.
  induction l as [|x l IH]; intros Hstep s; [done|].
  cbn [try_fold fold_left].
  destruct (Hstep s x (list_elem_of_here _ _)) as [s' ->].
  apply IH. intros s0 y Hy. apply Hstep. by right.
Qed.

(** * Formatting a field number *)

Lemma field_fallback_some (n : Z) :
  (0 ≤ n < 10 ^ INT_MAX_STR_DIGITS)%Z →
  field_fallback n = Some (field_text n).
Proof.
  intros Hn. unfold field_fallback, int_to_str, field_text.
  destruct (Z.ltb_spec (Z.abs n) (10 ^ INT_MAX_STR_DIGITS)); [done | lia].
Qed.

Lemma field_fallback_none (n : Z) :
  (10 ^ INT_MAX_STR_DIGITS ≤ n)%Z → field_fallback n = None.
Proof.
  intros Hn. unfold field_fallback, int_to_str.
  destruct (Z.ltb_spec (Z.abs n) (10 ^ INT_MAX_STR_DIGITS)); [lia | done].
Qed.

(** The numbers of the tables are far below the limit. *)
Lemma small_number_limit (n : Z) :
  (n < 2 ^ 32)%Z → (n < 10 ^ INT_MAX_STR_DIGITS)%Z.
Proof.
  intros Hn. apply Z.lt_le_trans with (10 ^ 10)%Z; [lia|].
  unfold INT_MAX_STR_DIGITS. apply Z.pow_le_mono_r; lia.
Qed.


(** * The tool-call decoder *)

(** Every name of the selector table is a non-empty string, so the test
    [if tool_name] only asks whether the number is in the table. *)
Lemma TOOL_FIELD_MAP_truthy (fn : Z) (name : string) :
  TOOL_FIELD_MAP !! fn = Some name → str_truthy name = true.
Proof.
  intros H. apply elem_of_list_to_map_2 in H.
  repeat (apply elem_of_cons in H as [H|H];
          [by injection H as -> ->|]).
  by apply elem_of_nil in H.
Qed.

Lemma as_bytes_scanned (f : WireField) :
  scanned f →
  as_bytes (wire_type f) (field_value f)
  = match field_value f with
    | VBytes bs => Some bs
    | VInt _ => None
    end
  ∧ (wire_type f = 2%Z ↔ ∃ bs, field_value f = VBytes bs).
Proof.
  intros [_ [[Hwt (n & _ & Hv)]|[Hwt (bs & Hv)]]];
    rewrite Hv, Hwt; simpl; split; try done.
  - split; [done|]. by intros [? ?].
  - split; [|done]. eauto.
Qed.

(** The loop passes over the fields that are not selectors. *)
Lemma parse_tool_call_loop_skip (pre rest : list WireField)
    (info : ToolCall) :
  Forall scanned pre →
  Forall (λ f, is_selector f = false) pre →
  parse_tool_call_loop (pre ++ rest) info = parse_tool_call_loop rest info.
Proof.
  intros Hsc Hno. induction pre as [|f pre IH]; [done|].
  apply Forall_cons in Hsc as [Hf Hsc]. apply Forall_cons in Hno as [Hn Hno].
  destruct f as [[fn wt] val]. cbn [app parse_tool_call_loop].
  destruct (as_bytes_scanned _ Hf) as [Hab Hwt].
  unfold is_selector, field_number, wire_type, field_value in *.
  cbn [fst snd] in *.
  destruct (TOOL_FIELD_MAP !! fn) as [name|] eqn:E; [|by apply IH].
  rewrite bool_decide_eq_true_2 in Hn by eauto. cbn [andb] in Hn.
  apply Z.eqb_neq in Hn.
  destruct (as_bytes wt val) as [bs|] eqn:Eb; [|by apply IH].
  exfalso. apply Hn, Hwt. destruct val; [done|eauto].
Qed.

(** C2.  First-match-wins tool selection.  The first top-level field, in
    encoding order, whose number is in the selector table and whose wire
    type is length-delimited gives the tool name, and the arguments are
    decoded from that field alone with the schema of that tool, whatever
    fields come after it, selectors included.  In particular a message
    with only field 8, whose field 1 holds "a.ts" (bare or wrapped),
    decodes to the tool "read" with the single argument filePath =
    "a.ts". *)
Theorem first_selector_wins (data : list byte) (pre post : list WireField)
    (fn : Z) (bs : list byte) (name : string) :
  parse_proto_fields data = pre ++ (fn, 2%Z, VBytes bs) :: post →
  TOOL_FIELD_MAP !! fn = Some name →
  Forall (λ f, is_selector f = false) pre →
  parse_tool_call data
  = mkToolCall name
      (outcome_state
         (try_fold (parse_tool_arg (default ∅ (TOOL_ARG_SCHEMA !! name)))
            (parse_proto_fields bs) ∅))
  ∧ parse_tool_call read_message
    = mkToolCall "read" {["filePath" := AStr "a.ts"]}
  ∧ parse_tool_call read_message_wrapped
    = mkToolCall "read" {["filePath" := AStr "a.ts"]}.
Proof.
  intros Hscan Hname Hpre. split; [|split; by vm_compute].
  unfold parse_tool_call. rewrite Hscan.
  rewrite parse_tool_call_loop_skip; [| |done].
  - cbn [parse_tool_call_loop as_bytes Z.eqb args]. rewrite Hname.
    cbn [Z.eqb Pos.eqb]. by rewrite (TOOL_FIELD_MAP_truthy fn name).
  - pose proof (parse_proto_fields_scanned data) as Hall.
    rewrite Hscan in Hall. by apply Forall_app in Hall as [? _].
Qed.

Lemma first_selector_wins_witness :
  parse_tool_call two_selectors_message
  = mkToolCall "read"
      (outcome_state
         (try_fold (parse_tool_arg (default ∅ (TOOL_ARG_SCHEMA !! "read")))
            (parse_proto_fields (encode_fields [IBytes 1 a_ts])) ∅))
  ∧ parse_tool_call read_message
    = mkToolCall "read" {["filePath" := AStr "a.ts"]}
  ∧ parse_tool_call read_message_wrapped
    = mkToolCall "read" {["filePath" := AStr "a.ts"]}.
Proof.
  apply (first_selector_wins two_selectors_message []
           [(12%Z, 2%Z, VBytes (encode_fields [IVarint 4 1]))] 8).
  - by vm_compute.
  - by vm_compute.
  - constructor.
Defined.





(** A sub-field number of more than 4300 digits cannot be formatted:
    the argument loop ends there, with the arguments stored so far. *)
Lemma parse_tool_arg_raises (arg_schema : gmap Z string)
    (args : gmap string ArgVal) (afn awt : Z) (aval : Value) :
  (10 ^ INT_MAX_STR_DIGITS ≤ afn)%Z →
  parse_tool_arg arg_schema args (afn, awt, aval) = Raised args.
Proof. intros H. unfold parse_tool_arg. by rewrite field_fallback_none. Qed.

(** The boolean coercion on whole messages: [replaceAll] of an edit call
    encoded as the varint 1 is [true], as 0 is [false]; any other value
    is [false] as well. *)
Lemma edit_replaceAll_examples :
  args (parse_tool_call (edit_message 1)) = {["replaceAll" := ABool true]}
  ∧ args (parse_tool_call (edit_message 0))
    = {["replaceAll" := ABool false]}
  ∧ args (parse_tool_call (edit_message 2))
    = {["replaceAll" := ABool false]}.
Proof. repeat split; by vm_compute. Qed.


(** * The update decoder *)


Lemma scan_single_bytes (fn : Z) (bs : list byte) :
  (1 ≤ fn)%Z →
  parse_proto_fields (encode_fields [IBytes fn bs]) = [(fn, 2%Z, VBytes bs)].
Proof.
  intros Hfn. rewrite parse_proto_fields_encoded; [done|].
  by repeat constructor.
Qed.







(** * Further properties of the varint decoder and the field scanner *)

Lemma lor_lt_pow2 (a b k : Z) :
  (0 ≤ k)%Z → (0 ≤ a < 2 ^ k)%Z → (0 ≤ b < 2 ^ k)%Z →
  (0 ≤ Z.lor a b < 2 ^ k)%Z.
Proof.
  intros Hk Ha Hb. split; [apply Z.lor_nonneg; lia|].
  destruct (Z.eq_dec (Z.lor a b) 0%Z) as [->|Hne]; [lia|].
  apply Z.log2_lt_pow2; [pose proof (Z.lor_nonneg a b); lia|].
  rewrite Z.log2_lor by lia.
  destruct (Z.eq_dec a 0%Z) as [->|Ha0], (Z.eq_dec b 0%Z) as [->|Hb0].
  - by rewrite Z.lor_0_l in Hne.
  - rewrite Z.max_r by (simpl; apply Z.log2_nonneg).
    apply Z.log2_lt_pow2; lia.
  - rewrite Z.max_l by (simpl; apply Z.log2_nonneg).
    apply Z.log2_lt_pow2; lia.
  - apply Z.max_lub_lt; apply Z.log2_lt_pow2; lia.
Qed.

Lemma low7_shift_bound (b : byte) (shift : Z) :
  (0 ≤ shift)%Z →
  (0 ≤ Z.shiftl (Z.land (byte_val b) 0x7F) shift < 2 ^ (shift + 7))%Z.
Proof.
  intros Hs. rewrite byte_low7, Z.shiftl_mul_pow2 by done.
  assert (0 ≤ byte_val b mod 128 < 128)%Z by (apply Z.mod_pos_bound; lia).
  rewrite Z.pow_add_r by lia. change (2 ^ 7)%Z with 128%Z.
  assert (0 < 2 ^ shift)%Z by (apply Z.pow_pos_nonneg; lia). nia.
Qed.

Lemma varint_scan_bound (rest : list byte) :
  ∀ result shift,
    (0 ≤ shift)%Z → (0 ≤ result < 2 ^ shift)%Z →
    (0 ≤ (varint_scan rest result shift).1
     < 2 ^ (shift + 7 * Z.of_nat (varint_scan rest result shift).2))%Z.
Proof.
  induction rest as [|b rest IH]; intros result shift Hs Hr;
    cbn [varint_scan].
  - cbn [fst snd]. by rewrite Z.mul_0_r, Z.add_0_r.
  - assert (Hacc : (0 ≤ Z.lor result
                          (Z.shiftl (Z.land (byte_val b) 127) shift)
                    < 2 ^ (shift + 7))%Z).
    { apply lor_lt_pow2; [lia| |by apply low7_shift_bound].
      split; [lia|]. eapply Z.lt_le_trans; [apply Hr|].
      apply Z.pow_le_mono_r; lia. }
    destruct (Z.land (byte_val b) 128 =? 0)%Z; cbn [fst snd].
    + by replace (shift + 7 * Z.of_nat 1)%Z with (shift + 7)%Z by lia.
    + specialize (IH _ (shift + 7)%Z ltac:(lia) Hacc).
      destruct (varint_scan rest _ _) as [v n]. cbn [fst snd] in *.
      by replace (shift + 7 * Z.of_nat (S n))%Z
        with (shift + 7 + 7 * Z.of_nat n)%Z by lia.
Qed.

(** X1.  Reading a varint inside the buffer always makes progress and
    stays inside: from [offset < len(data)] the decoder returns an
    offset strictly after the start and at most the end of the buffer,
    and a value that is non-negative and fits in seven bits per byte
    read. *)
Theorem parse_varint_advances (data : list byte) (offset : nat) :
  offset < length data →
  ∃ v offset',
    parse_varint data offset = Some (v, offset')
    ∧ offset < offset' ≤ length data
    ∧ (0 ≤ v < 2 ^ (7 * Z.of_nat (offset' - offset)))%Z.
Proof.
  intros Hoff. rewrite parse_varint_drop.
  pose proof (varint_scan_length (drop offset data) 0 0) as Hlen.
  pose proof (varint_scan_bound (drop offset data) 0 0 (Z.le_refl 0)
                ltac:(simpl; lia)) as Hb.
  rewrite length_drop in Hlen.
  assert (Hp : 1 ≤ (varint_scan (drop offset data) 0 0).2).
  { destruct (drop offset data) as [|b rest] eqn:E.
    - apply (f_equal length) in E. rewrite length_drop in E.
      simpl in E. lia.
    - apply varint_scan_progress. }
  destruct (varint_scan (drop offset data) 0 0) as [v n].
  cbn [fst snd] in *. exists v, (offset + n). split; [done|].
  split; [lia|]. by replace (offset + n - offset) with n by lia.
Qed.

Lemma parse_varint_advances_witness :
  ∃ v offset',
    parse_varint [x08; xac; x02] 1 = Some (v, offset')
    ∧ 1 < offset' ≤ length [x08; xac; x02]
    ∧ (0 ≤ v < 2 ^ (7 * Z.of_nat (offset' - 1)))%Z.
Proof. apply (parse_varint_advances [x08; xac; x02] 1). simpl. lia. Defined.

(** X2.  An unsupported wire type (3, 4, 6 or 7) ends the scan: the
    fields before it are returned, everything from its tag on is
    ignored, whatever bytes follow. *)
Theorem scan_stops_at_unknown_wire_type (items : list Item) (fn wt : Z)
    (rest : list byte) :
  Forall valid_item items →
  (0 ≤ fn)%Z →
  wt = 3%Z ∨ wt = 4%Z ∨ wt = 6%Z ∨ wt = 7%Z →
  parse_proto_fields (encode_fields items ++ encode_tag fn wt ++ rest)
  = wire_fields items.
Proof.
  intros Hall Hfn Hwt.
  rewrite parse_proto_fields_app by done.
  rewrite <- (app_nil_r (wire_fields items)) at 2. f_equal.
  rewrite parse_proto_fields_scan.
  pose proof (encode_tag_nonempty fn wt) as Hne.
  rewrite length_app.
  destruct (length (encode_tag fn wt) + length rest) as [|fuel] eqn:E;
    [lia|].
  rewrite fields_scan_S by (rewrite length_app; lia).
  unfold fields_step.
  rewrite varint_scan_tag, drop_app_length by lia.
  destruct (tag_split fn wt) as (_ & -> & ->); [lia..|].
  destruct (varint_scan rest 0 0) as [x m].
  by destruct Hwt as [-> | [-> | [-> | ->]]].
Qed.

Lemma scan_stops_at_unknown_wire_type_witness :
  parse_proto_fields
    (encode_fields [IVarint 4 1] ++ encode_tag 2 3
       ++ encode_fields [IVarint 5 1])
  = [(4%Z, 0%Z, VInt 1)].
Proof.
  apply (scan_stops_at_unknown_wire_type [IVarint 4 1] 2 3).
  - repeat constructor; simpl; lia.
  - lia.
  - auto.
Defined.

(** X3.  A fixed-width field cut short by the end of the buffer is
    skipped without error: the scanner adds 8 (or 4) to the offset
    without looking at the bytes, runs past the end and returns the
    fields collected before it. *)
Theorem scan_truncated_fixed (items : list Item) (fn : Z)
    (partial : list byte) :
  Forall valid_item items →
  (0 ≤ fn)%Z →
  (length partial ≤ 8 →
   parse_proto_fields (encode_fields items ++ encode_tag fn 1 ++ partial)
   = wire_fields items)
  ∧ (length partial ≤ 4 →
     parse_proto_fields (encode_fields items ++ encode_tag fn 5 ++ partial)
     = wire_fields items).
Proof.
  intros Hall Hfn.
  assert (Hgen : ∀ wt k,
            (wt = 1%Z ∧ k = 8) ∨ (wt = 5%Z ∧ k = 4) →
            length partial ≤ k →
            parse_proto_fields
              (encode_fields items ++ encode_tag fn wt ++ partial)
            = wire_fields items).
  { intros wt k Hwk Hlen.
    rewrite parse_proto_fields_app by done.
    rewrite <- (app_nil_r (wire_fields items)) at 2. f_equal.
    rewrite parse_proto_fields_scan.
    pose proof (encode_tag_nonempty fn wt) as Hne.
    rewrite length_app.
    destruct (length (encode_tag fn wt) + length partial) as [|fuel] eqn:E;
      [lia|].
    rewrite fields_scan_S by (rewrite length_app; lia).
    unfold fields_step.
    rewrite varint_scan_tag, drop_app_length by lia.
    destruct (tag_split fn wt) as (_ & -> & ->); [lia..|].
    destruct (varint_scan partial 0 0) as [x m].
    destruct Hwk as [[-> ->] | [-> ->]]; cbn [Z.eqb Pos.eqb];
      rewrite drop_ge by done; apply fields_scan_nil. }
  split; intros Hlen; eapply Hgen; eauto.
Qed.

Lemma scan_truncated_fixed_witness :
  (length [x01; x02] ≤ 8 →
   parse_proto_fields
     (encode_fields [IVarint 4 1] ++ encode_tag 2 1 ++ [x01; x02])
   = [(4%Z, 0%Z, VInt 1)])
  ∧ (length [x01; x02] ≤ 4 →
     parse_proto_fields
       (encode_fields [IVarint 4 1] ++ encode_tag 2 5 ++ [x01; x02])
     = [(4%Z, 0%Z, VInt 1)]).
Proof.
  apply (scan_truncated_fixed [IVarint 4 1] 2 [x01; x02]).
  - repeat constructor; simpl; lia.
  - lia.
Defined.

Lemma fields_scan_slices (fuel : nat) :
  ∀ (rest : list byte) (f : WireField) (bs : list byte),
    f ∈ fields_scan fuel rest →
    field_value f = VBytes bs →
    ∃ pre post, rest = pre ++ bs ++ post ∧ 1 ≤ length pre.
Proof.
  induction fuel as [|fuel IH]; intros rest f bs Hin Hv.
  { by apply elem_of_nil in Hin. }
  destruct rest as [|b rest]; [by apply elem_of_nil in Hin|].
  cbn [fields_scan] in Hin. unfold fields_step in Hin.
  pose proof (varint_scan_progress b rest 0 0) as Hp.
  pose proof (varint_scan_length (b :: rest) 0 0) as Hn.
  destruct (varint_scan (b :: rest) 0 0) as [tag n]. cbn [fst snd] in *.
  set (whole := b :: rest) in *.
  assert (Hdeeper : ∀ k, n ≤ k →
            f ∈ fields_scan fuel (drop k whole) →
            ∃ pre post, whole = pre ++ bs ++ post ∧ 1 ≤ length pre).
  { intros k Hk Hin'.
    destruct (IH _ _ _ Hin' Hv) as (pre & post & E & _).
    exists (take k whole ++ pre), post. split.
    - rewrite <- app_assoc, <- E. by rewrite take_drop.
    - rewrite length_app, length_take. lia. }
  set (rest1 := drop n whole) in *.
  pose proof (varint_scan_length rest1 0 0) as Hm.
  destruct (varint_scan rest1 0 0) as [x m]. cbn [fst snd] in *.
  destruct (Z.land tag 7 =? 0)%Z.
  { apply elem_of_cons in Hin as [Ef|Hin];
      [subst f; unfold field_value in Hv; simpl in Hv; discriminate|].
    unfold rest1 in Hin. rewrite drop_drop in Hin.
    apply (Hdeeper (n + m)); [lia|exact Hin]. }
  destruct (Z.land tag 7 =? 2)%Z.
  { destruct (Z.gtb_spec x (Z.of_nat (length (drop m rest1)))) as [|Hfit];
      [by apply elem_of_nil in Hin|].
    apply elem_of_cons in Hin as [Ef|Hin].
    - subst f. unfold field_value in Hv. simpl in Hv. injection Hv as <-.
      exists (take (n + m) whole), (drop (Z.to_nat x) (drop (n + m) whole)).
      split.
      + unfold rest1. rewrite drop_drop, take_drop. by rewrite take_drop.
      + rewrite length_take. lia.
    - unfold rest1 in Hin. rewrite !drop_drop in Hin.
      apply (Hdeeper (n + (m + Z.to_nat x))); [lia|exact Hin]. }
  destruct (Z.land tag 7 =? 1)%Z.
  { unfold rest1 in Hin. rewrite drop_drop in Hin.
    apply (Hdeeper (n + 8)); [lia|exact Hin]. }
  destruct (Z.land tag 7 =? 5)%Z.
  { unfold rest1 in Hin. rewrite drop_drop in Hin.
    apply (Hdeeper (n + 4)); [lia|exact Hin]. }
  by apply elem_of_nil in Hin.
Qed.

(** X4.  The bytes of every length-delimited field the scanner returns
    are a contiguous slice of the buffer, preceded by at least one byte
    (the tag); such a value is therefore strictly shorter than the
    buffer it was found in, so nested scans always shrink. *)
Theorem scanned_bytes_are_slices (data : list byte) (f : WireField)
    (bs : list byte) :
  f ∈ parse_proto_fields data →
  field_value f = VBytes bs →
  (∃ pre post, data = pre ++ bs ++ post ∧ 1 ≤ length pre)
  ∧ length bs < length data.
Proof.
  intros Hin Hv. rewrite parse_proto_fields_scan in Hin.
  destruct (fields_scan_slices _ _ _ _ Hin Hv) as (pre & post & E & Hpre).
  split; [eauto|]. rewrite E, !length_app. lia.
Qed.

Lemma scanned_bytes_are_slices_witness :
  (∃ pre post, hello_message = pre ++ drop 2 hello_message ++ post
               ∧ 1 ≤ length pre)
  ∧ length (drop 2 hello_message) < length hello_message.
Proof.
  apply (scanned_bytes_are_slices hello_message
           (1%Z, 2%Z, VBytes (drop 2 hello_message))).
  - vm_compute. repeat constructor.
  - reflexivity.
Defined.

Lemma fields_scan_count (fuel : nat) :
  ∀ rest : list byte, length (fields_scan fuel rest) ≤ length rest.
Proof.
  induction fuel as [|fuel IH]; intros rest; [simpl; lia|].
  destruct rest as [|b rest]; [simpl; lia|].
  cbn [fields_scan]. unfold fields_step.
  pose proof (varint_scan_progress b rest 0 0) as Hp.
  destruct (varint_scan (b :: rest) 0 0) as [tag n]. cbn [fst snd] in *.
  set (whole := b :: rest).
  assert (Hdeeper : ∀ k, n ≤ k →
            length (fields_scan fuel (drop k whole)) < length whole).
  { intros k Hk. pose proof (IH (drop k whole)) as H.
    rewrite length_drop in H. unfold whole in *. simpl in *. lia. }
  destruct (varint_scan (drop n whole) 0 0) as [x m].
  destruct (Z.land tag 7 =? 0)%Z.
  { rewrite drop_drop. cbn [length].
    pose proof (Hdeeper (n + m)). lia. }
  destruct (Z.land tag 7 =? 2)%Z.
  { destruct (_ >? _)%Z; [simpl; lia|].
    rewrite !drop_drop. cbn [length].
    pose proof (Hdeeper (n + m + Z.to_nat x)). lia. }
  destruct (Z.land tag 7 =? 1)%Z.
  { rewrite drop_drop. pose proof (Hdeeper (n + 8)). lia. }
  destruct (Z.land tag 7 =? 5)%Z; [|simpl; lia].
  rewrite drop_drop. pose proof (Hdeeper (n + 4)). lia.
Qed.

(** X5.  The scanner returns at most one tuple per byte of the buffer:
    every tuple accounts for at least the byte of its tag. *)
Theorem scan_count_bound (data : list byte) :
  length (parse_proto_fields data) ≤ length data.
Proof. rewrite parse_proto_fields_scan. apply fields_scan_count. Qed.

(** X6.  Complete fields at the head of a buffer do not disturb the scan
    of what follows: the scan of the whole is the scan of the head
    followed by the scan of the rest, whatever the rest is. *)
Theorem scan_concat (items : list Item) (rest : list byte) :
  Forall valid_item items →
  parse_proto_fields (encode_fields items ++ rest)
  = parse_proto_fields (encode_fields items) ++ parse_proto_fields rest.
Proof.
  intros Hall. rewrite parse_proto_fields_app by done.
  by rewrite parse_proto_fields_encoded.
Qed.

Lemma scan_concat_witness :
  parse_proto_fields (encode_fields [IVarint 4 1] ++ [x00; x05])
  = parse_proto_fields (encode_fields [IVarint 4 1])
    ++ parse_proto_fields [x00; x05].
Proof.
  apply (scan_concat [IVarint 4 1] [x00; x05]).
  repeat constructor; simpl; lia.
Defined.

(** X7.  A buffer that ends right after the tag of a length-delimited
    field still yields that field, with empty bytes: the missing length
    reads as 0, which fits the zero bytes that remain. *)
Theorem scan_truncated_length (items : list Item) (fn : Z) :
  Forall valid_item items →
  (0 ≤ fn)%Z →
  parse_proto_fields (encode_fields items ++ encode_tag fn 2)
  = wire_fields items ++ [(fn, 2%Z, VBytes [])].
Proof.
  intros Hall Hfn.
  rewrite parse_proto_fields_app by done. f_equal.
  rewrite parse_proto_fields_scan.
  pose proof (encode_tag_nonempty fn 2) as Hne.
  destruct (length (encode_tag fn 2)) as [|fuel] eqn:E; [lia|].
  rewrite fields_scan_S by lia.
  unfold fields_step.
  rewrite <- (app_nil_r (encode_tag fn 2)).
  rewrite varint_scan_tag, drop_app_length by lia.
  destruct (tag_split fn 2) as (_ & -> & ->); [lia..|].
  cbn. by rewrite fields_scan_nil.
Qed.

Lemma scan_truncated_length_witness :
  parse_proto_fields (encode_fields [IVarint 4 1] ++ encode_tag 1 2)
  = [(4%Z, 0%Z, VInt 1); (1%Z, 2%Z, VBytes [])].
Proof.
  apply (scan_truncated_length [IVarint 4 1] 1).
  - repeat constructor; simpl; lia.
  - lia.
Defined.

(** * Further properties of the frame loop and the stream callback *)

Lemma byte_of_Z_mod (z : Z) : byte_of_Z z = byte_of_Z (z mod 256).
Proof. unfold byte_of_Z. by rewrite Z.mod_mod. Qed.

Lemma byte_of_Z_eq (z : Z) (b : byte) :
  (z mod 256 = byte_val b)%Z → byte_of_Z z = b.
Proof. intros H. by rewrite byte_of_Z_mod, H, byte_of_Z_val. Qed.

Lemma be32_int_from_bytes (b1 b2 b3 b4 : byte) :
  be32 (int_from_bytes_big [b1; b2; b3; b4]) = [b1; b2; b3; b4]
  ∧ (0 ≤ int_from_bytes_big [b1; b2; b3; b4] < 2 ^ 32)%Z.
Proof.
  unfold be32, int_from_bytes_big. cbn [fold_left].
  pose proof (byte_val_range b1). pose proof (byte_val_range b2).
  pose proof (byte_val_range b3). pose proof (byte_val_range b4).
  change (2 ^ 32)%Z with 4294967296%Z.
  split; [|lia].
  rewrite !Z.shiftr_div_pow2 by lia.
  change (2 ^ 24)%Z with 16777216%Z. change (2 ^ 16)%Z with 65536%Z.
  change (2 ^ 8)%Z with 256%Z.
  repeat f_equal; apply byte_of_Z_eq; Z.div_mod_to_equations; lia.
Qed.

Lemma frames_scan_prefix (fuel : nat) :
  ∀ rest : list byte,
    length rest ≤ fuel →
    Forall valid_frame (frames_scan fuel rest)
    ∧ ∃ tail,
        rest = encode_frames (frames_scan fuel rest) ++ tail
        ∧ frames_scan (length tail) tail = [].
Proof.
  induction fuel as [|fuel IH]; intros rest Hfuel.
  { destruct rest; [|simpl in Hfuel; lia].
    split; [constructor|]. by exists []. }
  assert (Hstop : frames_scan (S fuel) rest = [] →
            Forall valid_frame (frames_scan (S fuel) rest)
            ∧ ∃ tail,
                rest = encode_frames (frames_scan (S fuel) rest) ++ tail
                ∧ frames_scan (length tail) tail = []).
  { intros E. rewrite E. split; [constructor|]. exists rest.
    split; [done|]. rewrite <- E. by apply frames_scan_fuel. }
  destruct rest as [|fl [|b1 [|b2 [|b3 [|b4 body]]]]];
    try (by apply Hstop).
  cbn [frames_scan] in *.
  destruct (be32_int_from_bytes b1 b2 b3 b4) as [Hbe Hrange].
  set (len := int_from_bytes_big [b1; b2; b3; b4]) in *.
  destruct (Z.gtb_spec len (Z.of_nat (length body))) as [Hgt|Hfit];
    [by apply Hstop|].
  clear Hstop. simpl in Hfuel.
  destruct (IH (drop (Z.to_nat len) body)) as [Hvalid (tail & E & Htail)].
  { rewrite length_drop. lia. }
  assert (Hlen : length (take (Z.to_nat len) body) = Z.to_nat len).
  { rewrite length_take. lia. }
  split.
  - constructor; [|done]. unfold valid_frame. cbn [frame_data].
    rewrite Hlen. lia.
  - exists tail. split; [|done].
    unfold encode_frames in *. cbn [map concat].
    unfold encode_frame at 1. cbn [flags frame_data].
    rewrite Hlen, Z2Nat.id, Hbe by lia.
    cbn [app]. do 5 f_equal.
    rewrite <- app_assoc, <- E. by rewrite take_drop.
Qed.

(** X8.  The frames cut out of the bytes of a call are exactly a
    maximal prefix of those bytes: re-encoding them (flag byte, 4-byte
    big-endian length, payload) gives back the bytes consumed, each
    payload is shorter than 2^32, and the loop stops only where no
    complete frame follows: the unconsumed tail does not begin with the
    encoding of any frame. *)
Theorem grpc_frames_reencode (data : list byte) :
  Forall valid_frame (grpc_frames data)
  ∧ ∃ tail,
      data = encode_frames (grpc_frames data) ++ tail
      ∧ ∀ (f : Frame) (rest : list byte),
          valid_frame f → tail ≠ encode_frame f ++ rest.
Proof.
  rewrite grpc_frames_scan.
  destruct (frames_scan_prefix (length data) data (le_n _))
    as [Hv (tail & E & Ht)].
  split; [done|]. exists tail. split; [done|].
  intros f rest Hf ->.
  pose proof (encode_frame_length f) as Hlen.
  rewrite length_app in Ht.
  destruct (length (encode_frame f) + length rest) as [|fuel] eqn:El; [lia|].
  by rewrite frames_scan_frame in Ht.
Qed.

Lemma record_events_counters (events : list Event) :
  ∀ meta,
    cursor_stream_bytes (fold_left record_event events meta)
    = cursor_stream_bytes meta
    ∧ cursor_stream_chunks (fold_left record_event events meta)
      = cursor_stream_chunks meta.
Proof.
  induction events as [|e events IH]; intros meta; [done|].
  cbn [fold_left]. destruct (IH (record_event meta e)) as [-> ->]. done.
Qed.

Lemma handle_frames_counters (fs : list Frame) :
  ∀ meta,
    cursor_stream_bytes (fold_left handle_frame fs meta)
    = cursor_stream_bytes meta
    ∧ cursor_stream_chunks (fold_left handle_frame fs meta)
      = cursor_stream_chunks meta.
Proof.
  induction fs as [|f fs IH]; intros meta; [done|].
  cbn [fold_left]. destruct (IH (handle_frame meta f)) as [-> ->].
  unfold handle_frame. destruct (is_trailer f); [done|].
  apply record_events_counters.
Qed.

Lemma modify_stream_counters (meta : StreamMeta) (data : list byte) :
  cursor_stream_bytes (modify_stream meta data)
  = cursor_stream_bytes meta + length data
  ∧ cursor_stream_chunks (modify_stream meta data)
    = cursor_stream_chunks meta + 1.
Proof.
  rewrite modify_stream_frames.
  by destruct (handle_frames_counters (grpc_frames data)
                 (mkMeta (cursor_stream_bytes meta + length data)
                    (cursor_stream_chunks meta + 1)
                    (cursor_stream_text meta) (cursor_stream_events meta)))
    as [-> ->].
Qed.

(** X9.  The byte and chunk counters of a stream are exact whatever the
    chunks contain: after any sequence of calls, [cursor_stream_bytes]
    is the total number of bytes fed and [cursor_stream_chunks] the
    number of calls, also for chunks that hold no complete frame. *)
Theorem stream_counters_exact (chunks : list (list byte)) :
  cursor_stream_bytes (feed_chunks chunks) = length (concat chunks)
  ∧ cursor_stream_chunks (feed_chunks chunks) = length chunks.
Proof.
  unfold feed_chunks.
  assert (H : ∀ meta,
            cursor_stream_bytes (fold_left modify_stream chunks meta)
            = cursor_stream_bytes meta + length (concat chunks)
            ∧ cursor_stream_chunks (fold_left modify_stream chunks meta)
              = cursor_stream_chunks meta + length chunks).
  { induction chunks as [|c chunks IH]; intros meta; cbn [fold_left].
    - simpl. lia.
    - destruct (IH (modify_stream meta c)) as [-> ->].
      destruct (modify_stream_counters meta c) as [-> ->].
      cbn [concat length]. rewrite length_app. lia. }
  destruct (H initial_meta) as [-> ->]. done.
Qed.

(** X10.  Calls only append.  Feeding further chunks keeps every event
    and text already recorded, in place, and adds after them exactly
    what those chunks would record on a fresh stream. *)
Theorem feed_chunks_app (chunks1 chunks2 : list (list byte)) :
  cursor_stream_events (feed_chunks (chunks1 ++ chunks2))
  = cursor_stream_events (feed_chunks chunks1)
    ++ cursor_stream_events (feed_chunks chunks2)
  ∧ cursor_stream_text (feed_chunks (chunks1 ++ chunks2))
    = cursor_stream_text (feed_chunks chunks1)
      ++ cursor_stream_text (feed_chunks chunks2).
Proof.
  unfold feed_chunks. rewrite fold_left_app.
  rewrite !fold_modify_stream_events, !fold_modify_stream_text.
  done.
Qed.

(** * Further properties of the update decoder *)

(** A loop whose body only appends to its accumulator. *)
Lemma fold_left_appends {A B : Type} (step : list B → A → list B)
    (l : list A) :
  (∀ acc x, step acc x = acc ++ step [] x) →
  ∀ acc, fold_left step l acc = acc ++ concat (map (step []) l).
Proof.
  intros Hstep. induction l as [|x l IH]; intros acc; simpl.
  - by rewrite app_nil_r.
  - by rewrite IH, Hstep, <- app_assoc.
Qed.

Lemma text_step_appends (name : string) (acc : list Event)
    (f : WireField) :
  text_step name acc f = acc ++ text_step name [] f.
Proof.
  destruct f as [[ifn iwt] ival]. unfold text_step.
  destruct (as_bytes iwt ival) as [bs|]; [|by rewrite app_nil_r].
  destruct (ifn =? 1)%Z; [|by rewrite app_nil_r].
  destruct (utf8_decode bs) as [text|]; [|by rewrite app_nil_r].
  destruct (str_truthy text); [done | by rewrite app_nil_r].
Qed.

Lemma outcome_state_map {S T : Type} (g : S → T) (o : Outcome S) :
  outcome_state (outcome_map g o) = g (outcome_state o).
Proof. by destruct o. Qed.

Lemma update_step_appends (acc : list Event) (f : WireField) :
  update_step acc f = outcome_map (app acc) (update_step [] f).
Proof.
  destruct f as [[ufn uwt] uval]. unfold update_step.
  destruct (field_fallback ufn) as [fallback|]; cbn [outcome_map];
    [|by rewrite app_nil_r].
  f_equal. destruct (as_bytes uwt uval) as [bs|].
  - destruct ((ufn =? 1) || (ufn =? 4) || (ufn =? 8))%Z.
    { rewrite !(fold_left_appends _ _ (text_step_appends _)). done. }
    destruct ((ufn =? 2) || (ufn =? 3))%Z; [done|].
    destruct (ufn =? 7)%Z; [done|].
    destruct (ufn =? 13)%Z; [done|].
    destruct (ufn =? 14)%Z; [done | by rewrite app_nil_r].
  - destruct (ufn =? 13)%Z; [done|].
    destruct (ufn =? 14)%Z; [done | by rewrite app_nil_r].
Qed.

Lemma outer_step_appends (acc : list Event) (f : WireField) :
  outer_step acc f = outcome_map (app acc) (outer_step [] f).
Proof.
  destruct f as [[fn wt] val]. unfold outer_step.
  destruct (as_bytes wt val) as [bs|];
    [|cbn [outcome_map]; by rewrite app_nil_r].
  destruct (fn =? 1)%Z; [|cbn [outcome_map]; by rewrite app_nil_r].
  apply try_fold_appends, update_step_appends.
Qed.

(** X11.  Decoding composes over concatenation: a message that starts
    with complete top-level fields decodes to the events of those
    fields followed by the events of the rest of the buffer, whatever
    the rest is, provided the decoding of those fields runs to its end;
    if it is cut short by an exception, the rest of the buffer is not
    looked at and the events collected up to the exception are the
    result.  In particular the events of two concatenated messages are
    the events of the first followed by those of the second when the
    first decodes without exception. *)
Theorem decode_concat (items : list Item) (rest : list byte) :
  Forall valid_item items →
  parse_agent_message_detailed (encode_fields items ++ rest)
  = match parse_agent_message_run (encode_fields items) with
    | Done events => events ++ parse_agent_message_detailed rest
    | Raised events => events
    end.
Proof.
  intros Hall. unfold parse_agent_message_detailed, parse_agent_message_run.
  rewrite parse_proto_fields_app, parse_proto_fields_encoded by done.
  rewrite try_fold_app.
  destruct (try_fold outer_step (wire_fields items) []) as [ev|ev]; [|done].
  rewrite (try_fold_appends _ _ outer_step_appends ev).
  apply outcome_state_map.
Qed.

Lemma decode_concat_witness :
  parse_agent_message_detailed
    (encode_fields [IBytes 1 (drop 2 hello_message)] ++ hello_message)
  = match parse_agent_message_run
            (encode_fields [IBytes 1 (drop 2 hello_message)]) with
    | Done events => events ++ parse_agent_message_detailed hello_message
    | Raised events => events
    end.
Proof.
  apply (decode_concat [IBytes 1 (drop 2 hello_message)] hello_message).
  repeat constructor; simpl; lia.
Defined.

Lemma outer_step_other (it : Item) :
  is_update_item it = false →
  try_fold outer_step (item_fields it) [] = Done [].
Proof.
  destruct it as [fn v|fn bs|fn bs|fn bs];
    cbn [is_update_item item_fields try_fold outer_step as_bytes Z.eqb
         Pos.eqb]; try done.
  by intros ->.
Qed.

(** X12.  Only top-level field 1 with length-delimited wire type is
    decoded: a valid message none of whose fields is such a field
    yields no event, whatever its other fields hold. *)
Theorem decode_ignores_other_top_level (items : list Item) :
  Forall valid_item items →
  Forall (λ it, is_update_item it = false) items →
  parse_agent_message_detailed (encode_fields items) = [].
Proof.
  intros Hall Hno. unfold parse_agent_message_detailed, parse_agent_message_run.
  rewrite parse_proto_fields_encoded by done. clear Hall.
  assert (H : try_fold outer_step (wire_fields items) [] = Done []);
    [|by rewrite H].
  induction Hno as [|it items Hit _ IH]; [done|].
  unfold wire_fields in *. cbn [map concat].
  by rewrite try_fold_app, outer_step_other.
Qed.

Lemma decode_ignores_other_top_level_witness :
  parse_agent_message_detailed
    (encode_fields [IVarint 1 5; IBytes 2 hello_message]) = [].
Proof.
  apply (decode_ignores_other_top_level [IVarint 1 5; IBytes 2 hello_message]).
  - repeat constructor; simpl; lia.
  - by repeat constructor.
Defined.

Lemma decode_update (uitems : list Item) :
  Forall valid_item uitems →
  parse_agent_message_detailed
    (encode_fields [IBytes 1 (encode_fields uitems)])
  = outcome_state (try_fold update_step (wire_fields uitems) []).
Proof.
  intros Hall. unfold parse_agent_message_detailed, parse_agent_message_run.
  rewrite scan_single_bytes by lia.
  cbn [try_fold outer_step as_bytes Z.eqb Pos.eqb].
  rewrite parse_proto_fields_encoded by done.
  by destruct (try_fold update_step (wire_fields uitems) []).
Qed.

Lemma wire_fields_elem (g : WireField) (items : list Item) :
  g ∈ wire_fields items → ∃ it, it ∈ items ∧ g ∈ item_fields it.
Proof.
  unfold wire_fields. induction items as [|it items IH]; cbn [map concat].
  - intros H. by apply elem_of_nil in H.
  - intros H. apply elem_of_app in H as [H|H].
    + exists it. split; [left | done].
    + destruct (IH H) as (it' & Hin & Hg). exists it'. split; [by right | done].
Qed.

(** A field the decoder does not react to leaves [results] as it is,
    whether its number can be formatted or not. *)
Lemma update_step_silent (it : Item) (g : WireField) (acc : list Event) :
  emits_update it = false →
  g ∈ item_fields it →
  outcome_state (update_step acc g) = acc.
Proof.
  destruct it as [fn v|fn bs|fn bs|fn bs]; cbn [emits_update item_fields];
    intros H Hg; try (by apply elem_of_nil in Hg);
    apply list_elem_of_singleton in Hg as ->; unfold update_step;
    (destruct (field_fallback fn) as [fallback|]; [|done]);
    cbn [outcome_state as_bytes Z.eqb Pos.eqb].
  - apply orb_false_iff in H as [-> ->]. done.
  - repeat (apply orb_false_iff in H as [H ?]).
    by repeat match goal with E : (_ =? _)%Z = false |- _ => rewrite E; clear E end.
Qed.

(** X13.  Gap tolerance.  An InteractionUpdate whose fields are all
    outside the kinds the decoder knows (any number other than 1, 2, 3,
    4, 7, 8, 13, 14, or one of 1, 2, 3, 4, 7, 8 that is not
    length-delimited) decodes to no event and no error. *)
Theorem decode_unmapped_update (uitems : list Item) :
  Forall valid_item uitems →
  Forall (λ it, emits_update it = false) uitems →
  parse_agent_message_detailed
    (encode_fields [IBytes 1 (encode_fields uitems)]) = [].
Proof.
  intros Hall Hno. rewrite decode_update by done.
  apply (try_fold_invariant (λ results, results = [])); [|done].
  intros results g Hg ->.
  destruct (wire_fields_elem g uitems Hg) as (it & Hit & Hgit).
  rewrite Forall_forall in Hno.
  apply (update_step_silent it); [by apply Hno | done].
Qed.

Lemma decode_unmapped_update_witness :
  parse_agent_message_detailed
    (encode_fields
       [IBytes 1 (encode_fields [IBytes 9 a_ts; IVarint 1 7])]) = [].
Proof.
  apply (decode_unmapped_update [IBytes 9 a_ts; IVarint 1 7]).
  - repeat constructor; simpl; lia.
  - by repeat constructor.
Defined.



Lemma text_step_typed (name : string) (f : WireField) :
  Forall (λ e, nonempty_text (ev_content e)) (text_step name [] f).
Proof.
  destruct f as [[ifn iwt] ival]. unfold text_step.
  destruct (as_bytes iwt ival) as [bs|]; [|constructor].
  destruct (ifn =? 1)%Z; [|constructor].
  destruct (utf8_decode bs) as [text|]; [|constructor].
  unfold str_truthy.
  destruct (String.eqb_spec text EmptyString) as [E|E]; simpl;
    constructor; [|constructor].
  by exists text.
Qed.

Lemma update_step_typed (f : WireField) :
  Forall well_typed_event (outcome_state (update_step [] f)).
Proof.
  destruct f as [[ufn uwt] uval]. unfold update_step.
  destruct (field_fallback ufn) as [fallback|]; cbn [outcome_state];
    [|constructor].
  assert (Hsig : ∀ t, is_text_type t = false →
            Forall well_typed_event [mkEvent t CNone None]).
  { intros t Ht. constructor; [|constructor].
    unfold well_typed_event. simpl. by rewrite Ht. }
  assert (Htool : ∀ t c h, is_text_type t = false →
            Forall well_typed_event [mkEvent t c h]).
  { intros t c h Ht. constructor; [|constructor].
    unfold well_typed_event. simpl. by rewrite Ht. }
  destruct (as_bytes uwt uval) as [bs|].
  - destruct ((ufn =? 1) || (ufn =? 4) || (ufn =? 8))%Z.
    { rewrite (fold_left_appends _ _ (text_step_appends _)). simpl.
      apply Forall_concat, Forall_map, Forall_forall. intros g _.
      eapply Forall_impl; [apply text_step_typed|].
      intros e He _. exact He. }
    destruct (Z.eqb_spec ufn 2) as [->|_]; [by apply Htool|].
    destruct (Z.eqb_spec ufn 3) as [->|_]; [by apply Htool|].
    cbn [orb].
    destruct (Z.eqb_spec ufn 7) as [->|_]; [by apply Htool|].
    destruct (ufn =? 13)%Z; [by apply Hsig|].
    destruct (ufn =? 14)%Z; [by apply Hsig | constructor].
  - destruct (ufn =? 13)%Z; [by apply Hsig|].
    destruct (ufn =? 14)%Z; [by apply Hsig | constructor].
Qed.

(** What holds of the events of every run of an appending body holds of
    the events the loop leaves behind. *)
Lemma try_fold_Forall {A B : Type} (P : B → Prop)
    (step : list B → A → Outcome (list B)) (l : list A) :
  (∀ acc x, step acc x = outcome_map (app acc) (step [] x)) →
  (∀ x, Forall P (outcome_state (step [] x))) →
  ∀ acc, Forall P acc → Forall P (outcome_state (try_fold step l acc)).
Proof.
  intros Happ Hstep. apply try_fold_invariant. intros acc x _ Hacc.
  rewrite Happ, outcome_state_map. apply Forall_app. by split.
Qed.

Lemma decode_typed (data : list byte) :
  Forall well_typed_event (parse_agent_message_detailed data).
Proof.
  unfold parse_agent_message_detailed, parse_agent_message_run.
  apply (try_fold_Forall _ _ _ outer_step_appends); [|constructor].
  intros [[fn wt] val]. unfold outer_step.
  destruct (as_bytes wt val) as [bs|]; [|constructor].
  destruct (fn =? 1)%Z; [|constructor].
  apply (try_fold_Forall _ _ _ update_step_appends); [|constructor].
  apply update_step_typed.
Qed.

Lemma event_texts_concat (l : list (list Event)) :
  event_texts (concat l) = concat (map event_texts l).
Proof.
  unfold event_texts. induction l as [|x l IH]; [done|].
  cbn [concat map]. by rewrite map_app, concat_app, IH.
Qed.

Lemma event_texts_typed (events : list Event) :
  Forall well_typed_event events →
  event_texts events = text_type_contents events
  ∧ Forall nonempty_text (event_texts events).
Proof.
  unfold event_texts, text_type_contents.
  induction 1 as [|e events He _ [IH1 IH2]]; [by split|].
  cbn [map concat]. rewrite IH1.
  destruct (is_text_type (ev_type e)) eqn:Et; cbn [andb].
  - destruct (He Et) as (s & Es & Hs). rewrite Es. cbn [content_truthy].
    unfold str_truthy.
    destruct (String.eqb_spec s EmptyString) as [E|_]; [done|].
    cbn [negb app]. split; [done|].
    constructor; [by exists s | by rewrite <- IH1].
  - split; [done|]. by rewrite <- IH1.
Qed.

(** X15.  The two lists of a stream stay consistent: after any sequence
    of calls, [cursor_stream_text] holds, in order, exactly the
    contents of the recorded events of type text_delta, thinking_delta
    or token_delta, and every one of them is a non-empty string. *)
Theorem stream_text_invariant (chunks : list (list byte)) :
  cursor_stream_text (feed_chunks chunks)
  = text_type_contents (cursor_stream_events (feed_chunks chunks))
  ∧ Forall nonempty_text (cursor_stream_text (feed_chunks chunks)).
Proof.
  unfold feed_chunks.
  rewrite fold_modify_stream_text, fold_modify_stream_events.
  cbn [initial_meta cursor_stream_text cursor_stream_events app].
  set (frames := concat (map grpc_frames chunks)).
  rewrite <- (map_map frame_events event_texts), <- event_texts_concat.
  apply event_texts_typed.
  apply Forall_concat, Forall_map, Forall_forall. intros f _.
  unfold frame_events. destruct (is_trailer f); [constructor|].
  apply decode_typed.
Qed.

(** * Further properties of the tool-call decoders *)

Lemma TOOL_FIELD_MAP_positive (fn : Z) (name : string) :
  TOOL_FIELD_MAP !! fn = Some name → (1 ≤ fn)%Z.
Proof.
  intros H. apply elem_of_list_to_map_2 in H.
  repeat (apply elem_of_cons in H as [H|H];
          [injection H as -> ->; lia|]).
  by apply elem_of_nil in H.
Qed.

(** A message whose only field selects a tool. *)
Lemma parse_tool_call_single (sel : Z) (tool : string)
    (payload : list byte) :
  TOOL_FIELD_MAP !! sel = Some tool →
  parse_tool_call (encode_fields [IBytes sel payload])
  = mkToolCall tool
      (outcome_state
         (try_fold (parse_tool_arg (schema_of tool))
            (parse_proto_fields payload) ∅)).
Proof.
  intros Hsel. unfold parse_tool_call.
  rewrite scan_single_bytes by (by eapply TOOL_FIELD_MAP_positive).
  cbn [parse_tool_call_loop as_bytes Z.eqb Pos.eqb args]. rewrite Hsel.
  by rewrite (TOOL_FIELD_MAP_truthy sel tool).
Qed.

(** X16.  A ToolCall message without a selector field decodes to the
    tool name "unknown" with no argument: this is the only sign of a
    message the decoder does not understand, no error is raised. *)
Theorem no_selector_unknown (data : list byte) :
  Forall (λ f, is_selector f = false) (parse_proto_fields data) →
  parse_tool_call data = mkToolCall "unknown" ∅.
Proof.
  intros Hno. unfold parse_tool_call.
  rewrite <- (app_nil_r (parse_proto_fields data)).
  rewrite parse_tool_call_loop_skip; [done| |done].
  apply parse_proto_fields_scanned.
Qed.

Lemma no_selector_unknown_witness :
  parse_tool_call (encode_fields [IVarint 8 1; IBytes 2 a_ts])
  = mkToolCall "unknown" ∅.
Proof.
  apply (no_selector_unknown (encode_fields [IVarint 8 1; IBytes 2 a_ts])).
  vm_compute. by repeat constructor.
Defined.

Lemma field_fallback_text (n : Z) (fallback : string) :
  field_fallback n = Some fallback → fallback = field_text n.
Proof.
  unfold field_fallback, int_to_str, field_text.
  destruct (Z.abs n <? 10 ^ INT_MAX_STR_DIGITS)%Z; [|done].
  by intros [= <-].
Qed.

Lemma item_fields_number (it : Item) (g : WireField) :
  g ∈ item_fields it → field_number g = item_number it.
Proof.
  destruct it as [fn v|fn bs|fn bs|fn bs]; cbn [item_fields item_number];
    intros Hg; try (by apply elem_of_nil in Hg);
    by apply list_elem_of_singleton in Hg as ->.
Qed.

(** An argument field whose number can be formatted does not end the
    argument loop. *)
Lemma parse_tool_arg_done (arg_schema : gmap Z string)
    (args : gmap string ArgVal) (f : WireField) :
  (0 ≤ field_number f < 10 ^ INT_MAX_STR_DIGITS)%Z →
  ∃ args', parse_tool_arg arg_schema args f = Done args'.
Proof.
  destruct f as [[afn awt] aval]. unfold field_number. cbn [fst].
  intros Hafn. unfold parse_tool_arg. rewrite field_fallback_some by done.
  eauto.
Qed.

(** X17.  A repeated argument keeps its last value: when the last
    sub-field of the selected tool is a varint and no sub-field number
    has more than 4300 decimal digits (so that every argument name can
    be formatted and the argument loop reaches its last field), the
    argument it names holds that value (as the boolean [value == 1] for
    replaceAll), whatever earlier sub-fields stored under the same
    name. *)
Theorem last_argument_wins (sel : Z) (tool : string) (aitems : list Item)
    (afn n : Z) :
  TOOL_FIELD_MAP !! sel = Some tool →
  Forall valid_item aitems →
  Forall (λ it, (item_number it < 10 ^ INT_MAX_STR_DIGITS)%Z) aitems →
  (1 ≤ afn < 10 ^ INT_MAX_STR_DIGITS)%Z → (0 ≤ n)%Z →
  let name := arg_name_of (schema_of tool) afn in
  args (parse_tool_call
          (encode_fields
             [IBytes sel (encode_fields (aitems ++ [IVarint afn n]))]))
    !! name
  = Some (if decide (name = "replaceAll")
          then ABool (bool_decide (n = 1%Z)) else AInt n).
Proof.
  intros Hsel Hall Hdigits [Hafn Hlimit] Hn name.
  rewrite (parse_tool_call_single sel tool) by done. cbn [args].
  rewrite parse_proto_fields_encoded.
  2:{ apply Forall_app. split; [done|]. by repeat constructor. }
  unfold wire_fields. rewrite map_app, concat_app, try_fold_app.
  rewrite try_fold_all_done.
  2:{ intros acc g Hg. apply parse_tool_arg_done.
      destruct (wire_fields_elem g aitems Hg) as (it & Hit & Hgit).
      rewrite (item_fields_number it g Hgit).
      rewrite Forall_forall in Hall, Hdigits.
      pose proof (Hall it Hit) as Hv. pose proof (Hdigits it Hit) as Hd.
      destruct Hv as [Hv _]. lia. }
  cbn [map concat app try_fold item_fields]. unfold parse_tool_arg at 1.
  rewrite field_fallback_some by lia.
  cbn [outcome_state as_bytes Z.eqb value_is_one raw_arg].
  fold (arg_name_of (schema_of tool) afn). fold name.
  destruct (String.eqb_spec name "replaceAll") as [E|E].
  - rewrite decide_True, lookup_insert_eq by done. do 2 f_equal.
    destruct (Z.eqb_spec n 1).
    + by rewrite bool_decide_eq_true_2.
    + by rewrite bool_decide_eq_false_2.
  - by rewrite decide_False, lookup_insert_eq.
Qed.

Lemma last_argument_wins_witness :
  args (parse_tool_call
          (encode_fields
             [IBytes 12
                (encode_fields ([IVarint 4 1] ++ [IVarint 4 0]))]))
    !! "replaceAll"
  = Some (ABool false).
Proof.
  apply (last_argument_wins 12 "edit" [IVarint 4 1] 4 0).
  - by vm_compute.
  - repeat constructor; simpl; lia.
  - constructor; [|constructor]. apply small_number_limit. by vm_compute.
  - split; [lia|]. apply small_number_limit. by vm_compute.
  - lia.
Defined.

Lemma parse_tool_arg_ok (arg_schema : gmap Z string)
    (args : gmap string ArgVal) (f : WireField) :
  scanned f →
  map_Forall (arg_entry_ok arg_schema) args →
  map_Forall (arg_entry_ok arg_schema)
    (outcome_state (parse_tool_arg arg_schema args f)).
Proof.
  intros [Hfn Hshape] Hargs. destruct f as [[afn awt] aval].
  unfold field_number, wire_type, field_value in *. cbn [fst snd] in *.
  unfold parse_tool_arg.
  destruct (field_fallback afn) as [fallback|] eqn:Ef; [|done].
  apply field_fallback_text in Ef as ->. cbn [outcome_state].
  fold (arg_name_of arg_schema afn).
  assert (Hname : ∃ a, (0 ≤ a)%Z
                       ∧ arg_name_of arg_schema afn = arg_name_of arg_schema a)
    by eauto.
  assert (Hstr : ∀ s, map_Forall (arg_entry_ok arg_schema)
                        (<[arg_name_of arg_schema afn := AStr s]> args)).
  { intros s. by apply map_Forall_insert_2. }
  destruct Hshape as [[-> (n & Hn & ->)] | [-> (bs & ->)]];
    cbn [as_bytes Z.eqb Pos.eqb value_is_one raw_arg].
  - destruct (String.eqb_spec (arg_name_of arg_schema afn) "replaceAll");
      by apply map_Forall_insert_2.
  - destruct (nested_string (parse_proto_fields bs)) as [nval|].
    + by destruct (utf8_decode nval).
    + by destruct (utf8_decode bs).
Qed.

(** X18.  The arguments of a decoded tool call are well formed: every
    key is the schema name (or the synthesized field_N name) of some
    sub-field of the selected tool, and every value is a string, the
    boolean of replaceAll, or a non-negative integer stored under
    another name; raw bytes are never stored. *)
Theorem tool_call_args_well_formed (data : list byte) :
  map_Forall (arg_entry_ok (schema_of (tool_name (parse_tool_call data))))
    (args (parse_tool_call data)).
Proof.
  unfold parse_tool_call.
  pose proof (parse_proto_fields_scanned data) as Hsc.
  induction Hsc as [|f fields Hf _ IH]; cbn [parse_tool_call_loop].
  { apply map_Forall_empty. }
  destruct f as [[fn wt] val].
  destruct (TOOL_FIELD_MAP !! fn) as [name|]; [|exact IH].
  destruct (as_bytes wt val) as [bs|]; [|exact IH].
  destruct (str_truthy name); [|exact IH].
  cbn [tool_name args]. fold (schema_of name).
  pose proof (parse_proto_fields_scanned bs) as Hargs.
  rewrite Forall_forall in Hargs.
  apply (try_fold_invariant (map_Forall (arg_entry_ok (schema_of name))));
    [|apply map_Forall_empty].
  intros acc g Hg Hacc. apply parse_tool_arg_ok; [by apply Hargs | done].
Qed.

Lemma tool_call_info_step_keys (info : ToolCallInfo) (f : WireField) :
  (is_Some (info_tool_name info) ↔ is_Some (info_args info))
  ∧ args_delta info = None →
  (is_Some (info_tool_name (parse_tool_call_info_step info f))
   ↔ is_Some (info_args (parse_tool_call_info_step info f)))
  ∧ args_delta (parse_tool_call_info_step info f) = None.
Proof.
  intros [Hk Hd]. destruct f as [[fn wt] val].
  unfold parse_tool_call_info_step.
  destruct (as_bytes wt val) as [bs|]; [|done].
  destruct (fn =? 1)%Z; [done|].
  destruct (fn =? 2)%Z; [cbn; by split; [split; eauto|]|].
  by destruct (fn =? 3)%Z.
Qed.

Lemma partial_step_no_args (info : ToolCallInfo) (f : WireField) :
  info_args info = None →
  info_args (parse_partial_tool_call_step info f) = None.
Proof.
  intros Ha. destruct f as [[fn wt] val].
  unfold parse_partial_tool_call_step.
  destruct (as_bytes wt val) as [bs|]; [|done].
  destruct (fn =? 1)%Z; [done|].
  destruct (fn =? 2)%Z; [done|].
  destruct (fn =? 3)%Z; [done|].
  by destruct (fn =? 4)%Z.
Qed.

Lemma tool_call_info_fold_keys (fields : list WireField) :
  ∀ info,
    (is_Some (info_tool_name info) ↔ is_Some (info_args info))
    ∧ args_delta info = None →
    (is_Some (info_tool_name
                (fold_left parse_tool_call_info_step fields info))
     ↔ is_Some (info_args
                  (fold_left parse_tool_call_info_step fields info)))
    ∧ args_delta (fold_left parse_tool_call_info_step fields info) = None.
Proof.
  induction fields as [|f fields IH]; intros info Hinfo; [done|].
  cbn [fold_left]. apply IH. by apply tool_call_info_step_keys.
Qed.

Lemma partial_fold_no_args (fields : list WireField) :
  ∀ info,
    info_args info = None →
    info_args (fold_left parse_partial_tool_call_step fields info) = None.
Proof.
  induction fields as [|f fields IH]; intros info Ha; [done|].
  cbn [fold_left]. apply IH. by apply partial_step_no_args.
Qed.

(** X19.  The keys of the two tool-call dicts.  For a started or
    completed tool call, [tool_name] and [args] are present together or
    absent together, and [args_delta] is never present.  For a partial
    tool call, [args] is never present: only the tool name of the nested
    ToolCall is kept. *)
Theorem tool_info_keys (data : list byte) :
  (is_Some (info_tool_name (parse_tool_call_info data))
   ↔ is_Some (info_args (parse_tool_call_info data)))
  ∧ args_delta (parse_tool_call_info data) = None
  ∧ info_args (parse_partial_tool_call data) = None.
Proof.
  unfold parse_tool_call_info, parse_partial_tool_call.
  destruct (tool_call_info_fold_keys (parse_proto_fields data) empty_info)
    as [Ha Hb].
  { split; [|done]. by split; intros [? ?]. }
  split; [exact Ha|]. split; [exact Hb|]. by apply partial_fold_no_args.
Qed.

(** X20.  Assembly of the tool-call dicts from a complete message.  A
    started or completed update with fields 1, 2, 3 decodes to the call
    id, the tool name and arguments of the nested ToolCall, and the
    model call id; a partial update with fields 1, 2, 3, 4 decodes to
    the call id, the tool name, the argument fragment and the model
    call id.  Each string is decoded on its own: one that is not valid
    UTF-8 is left out and the other keys are unaffected. *)
Theorem tool_info_assembly (cid tc third mid : list byte) :
  parse_tool_call_info
    (encode_fields [IBytes 1 cid; IBytes 2 tc; IBytes 3 mid])
  = mkInfo (utf8_decode cid) (Some (tool_name (parse_tool_call tc)))
      (Some (args (parse_tool_call tc))) None (utf8_decode mid)
  ∧ parse_partial_tool_call
      (encode_fields [IBytes 1 cid; IBytes 2 tc; IBytes 3 third;
                      IBytes 4 mid])
    = mkInfo (utf8_decode cid) (Some (tool_name (parse_tool_call tc)))
        None (utf8_decode third) (utf8_decode mid).
Proof.
  unfold parse_tool_call_info, parse_partial_tool_call.
  rewrite !parse_proto_fields_encoded by (repeat constructor; simpl; lia).
  cbn [wire_fields map concat item_fields app fold_left
       parse_tool_call_info_step parse_partial_tool_call_step as_bytes
       Z.eqb Pos.eqb empty_info call_id info_tool_name info_args
       args_delta model_call_id set_decoded].
  unfold set_decoded. split; by repeat (destruct (utf8_decode _)).
Qed.


(** A tool call whose argument loop is cut short: a varint sub-field
    whose number has more than 4300 digits ends the loop.  The tool
    name and the arguments stored before that field are kept, the
    arguments after it are lost. *)
Lemma tool_call_cut_short (sel afn v : Z) (tool : string)
    (aitems later : list Item) :
  TOOL_FIELD_MAP !! sel = Some tool →
  Forall valid_item (aitems ++ IVarint afn v :: later) →
  (10 ^ INT_MAX_STR_DIGITS ≤ afn)%Z →
  parse_tool_call
    (encode_fields
       [IBytes sel (encode_fields (aitems ++ IVarint afn v :: later))])
  = parse_tool_call (encode_fields [IBytes sel (encode_fields aitems)]).
Proof.
  intros Hsel Hall Hafn.
  rewrite !(parse_tool_call_single sel tool) by done. f_equal.
  rewrite !parse_proto_fields_encoded;
    [|by apply Forall_app in Hall as [? _] | done].
  unfold wire_fields. rewrite map_app, concat_app.
  cbn [map concat item_fields app].
  apply try_fold_raise. intros args'. by apply parse_tool_arg_raises.
Qed.

(** * The simple text extractor *)

Lemma simple_text_step_appends (acc : list string) (f : WireField) :
  simple_text_step acc f = acc ++ simple_text_step [] f.
Proof.
  destruct f as [[ifn iwt] ival]. unfold simple_text_step.
  destruct (as_bytes iwt ival) as [bs|]; [|by rewrite app_nil_r].
  destruct (ifn =? 1)%Z; [|by rewrite app_nil_r].
  destruct (utf8_decode bs) as [text|]; [|by rewrite app_nil_r].
  destruct (strip_truthy text); [done | by rewrite app_nil_r].
Qed.

Lemma simple_update_step_appends (acc : list string) (f : WireField) :
  simple_update_step acc f = acc ++ simple_update_step [] f.
Proof.
  destruct f as [[ufn uwt] uval]. unfold simple_update_step.
  destruct (as_bytes uwt uval) as [bs|]; [|by rewrite app_nil_r].
  destruct ((ufn =? 1) || (ufn =? 4) || (ufn =? 8))%Z;
    [|by rewrite app_nil_r].
  by rewrite !(fold_left_appends _ _ simple_text_step_appends).
Qed.

Lemma simple_outer_step_appends (acc : list string) (f : WireField) :
  simple_outer_step acc f = acc ++ simple_outer_step [] f.
Proof.
  destruct f as [[fn wt] val]. unfold simple_outer_step.
  destruct (as_bytes wt val) as [bs|]; [|by rewrite app_nil_r].
  destruct (fn =? 1)%Z; [|by rewrite app_nil_r].
  by rewrite !(fold_left_appends _ _ simple_update_step_appends).
Qed.

Lemma visible_texts_concat (l : list (list Event)) :
  visible_texts (concat l) = concat (map visible_texts l).
Proof.
  unfold visible_texts. induction l as [|x l IH]; [done|].
  cbn [concat map]. by rewrite map_app, concat_app, IH.
Qed.

Lemma concat_map_ext {A B : Type} (f g : A → list B) (l : list A) :
  (∀ x, f x = g x) → concat (map f l) = concat (map g l).
Proof. intros H. induction l as [|x l IH]; simpl; [done|]. by rewrite H, IH. Qed.

Lemma visible_text_step (name : string) (f : WireField) :
  visible_texts (text_step name [] f) = simple_text_step [] f.
Proof.
  destruct f as [[ifn iwt] ival]. unfold text_step, simple_text_step.
  destruct (as_bytes iwt ival) as [bs|]; [|done].
  destruct (ifn =? 1)%Z; [|done].
  destruct (utf8_decode bs) as [text|]; [|done].
  unfold str_truthy.
  destruct (String.eqb_spec text EmptyString) as [->|_]; [done|].
  cbn. by destruct (strip_truthy text).
Qed.

Lemma visible_texts_app (l1 l2 : list Event) :
  visible_texts (l1 ++ l2) = visible_texts l1 ++ visible_texts l2.
Proof. unfold visible_texts. by rewrite map_app, concat_app. Qed.

Lemma try_fold_agree {A : Type} (step : list Event → A → Outcome (list Event))
    (simple : list string → A → list string) (l : list A) :
  (∀ acc x, step acc x = outcome_map (app acc) (step [] x)) →
  (∀ acc x, simple acc x = acc ++ simple [] x) →
  (∀ x, texts_agree (simple [] x) (step [] x)) →
  texts_agree (fold_left simple l []) (try_fold step l []).
Proof.
  intros Hstep Hsimple Hagree.
  rewrite (fold_left_appends _ _ Hsimple). cbn [app].
  induction l as [|x l IH]; [done|].
  cbn [map concat try_fold]. specialize (Hagree x).
  destruct (step [] x) as [ev|ev]; cbn [texts_agree] in *.
  - rewrite (try_fold_appends _ _ Hstep ev), Hagree.
    destruct (try_fold step l []) as [ev'|ev'];
      cbn [outcome_map texts_agree] in *; rewrite visible_texts_app.
    + by rewrite IH.
    + destruct IH as [more ->]. exists more. by rewrite app_assoc.
  - destruct Hagree as [more ->]. exists (more ++ concat (map (simple []) l)).
    by rewrite app_assoc.
Qed.

Lemma update_step_agree (f : WireField) :
  texts_agree (simple_update_step [] f) (update_step [] f).
Proof.
  destruct f as [[ufn uwt] uval]. unfold update_step, simple_update_step.
  destruct (field_fallback ufn) as [fallback|]; cbn [texts_agree];
    [|by eexists].
  destruct (as_bytes uwt uval) as [bs|].
  - destruct ((ufn =? 1) || (ufn =? 4) || (ufn =? 8))%Z.
    { rewrite (fold_left_appends _ _ (text_step_appends _)).
      rewrite (fold_left_appends _ _ simple_text_step_appends).
      cbn [app]. rewrite visible_texts_concat, map_map.
      symmetry. apply concat_map_ext, visible_text_step. }
    destruct ((ufn =? 2) || (ufn =? 3))%Z; [done|].
    destruct (ufn =? 7)%Z; [done|].
    destruct (ufn =? 13)%Z; [done|].
    by destruct (ufn =? 14)%Z.
  - destruct (ufn =? 13)%Z; [done|].
    by destruct (ufn =? 14)%Z.
Qed.

Lemma outer_step_agree (f : WireField) :
  texts_agree (simple_outer_step [] f) (outer_step [] f).
Proof.
  destruct f as [[fn wt] val]. unfold outer_step, simple_outer_step.
  destruct (as_bytes wt val) as [bs|]; [|done].
  destruct (fn =? 1)%Z; [|done].
  apply try_fold_agree.
  - apply update_step_appends.
  - apply simple_update_step_appends.
  - apply update_step_agree.
Qed.

(** X22.  The simple extractor against the detailed decoder.  When the
    detailed decoder runs to its end, the simple extractor returns, in
    order, exactly the texts of its events that are not blank (a text
    made of white space only is kept by the detailed decoder and
    dropped by the simple one; tool calls, heartbeats and turn ends
    carry no text).  When the detailed decoder is cut short by an
    exception (an update field number it cannot format), the non-blank
    texts of the events it returns are the first texts of the simple
    extractor, which formats no field number and reads on. *)
Theorem extract_text_agrees (data : list byte) :
  match parse_agent_message_run data with
  | Done events =>
      parse_agent_message_detailed data = events
      ∧ extract_text_from_agent_message data = visible_texts events
  | Raised events =>
      parse_agent_message_detailed data = events
      ∧ ∃ more,
          extract_text_from_agent_message data
          = visible_texts events ++ more
  end.
Proof.
  unfold parse_agent_message_detailed.
  assert (H : texts_agree (extract_text_from_agent_message data)
                (parse_agent_message_run data)).
  { unfold extract_text_from_agent_message, parse_agent_message_run.
    apply try_fold_agree.
    - apply outer_step_appends.
    - apply simple_outer_step_appends.
    - apply outer_step_agree. }
  by destruct (parse_agent_message_run data).
Qed.

(** An update field whose number cannot be formatted ends the detailed
    decoder there, with [results] as it is. *)
Lemma update_step_raises (results : list Event) (ufn uwt : Z)
    (uval : Value) :
  (10 ^ INT_MAX_STR_DIGITS ≤ ufn)%Z →
  update_step results (ufn, uwt, uval) = Raised results.
Proof. intros H. unfold update_step. by rewrite field_fallback_none. Qed.

(** The detailed decoder cut short: the update fields after a varint
    field whose number has more than 4300 digits are not decoded. *)
Lemma decode_cut_short (ufn v : Z) (uitems later : list Item) :
  Forall valid_item (uitems ++ IVarint ufn v :: later) →
  (10 ^ INT_MAX_STR_DIGITS ≤ ufn)%Z →
  parse_agent_message_detailed
    (encode_fields
       [IBytes 1 (encode_fields (uitems ++ IVarint ufn v :: later))])
  = parse_agent_message_detailed
      (encode_fields [IBytes 1 (encode_fields uitems)]).
Proof.
  intros Hall Hufn.
  rewrite !decode_update; [|by apply Forall_app in Hall as [? _] | done].
  unfold wire_fields. rewrite map_app, concat_app.
  cbn [map concat item_fields app].
  apply try_fold_raise. intros results. by apply update_step_raises.
Qed.

Lemma extract_examples :
  extract_text_from_agent_message hello_message = ["Hello"]
  ∧ extract_text_from_agent_message
      (encode_fields
         [IBytes 1 (encode_fields
                      [IBytes 1 (encode_fields [IBytes 1 [x20; x0a]])])])
    = []
  ∧ parse_agent_message_detailed
      (encode_fields
         [IBytes 1 (encode_fields
                      [IBytes 1 (encode_fields [IBytes 1 [x20; x0a]])])])
    = [mkEvent "text_delta"
         (CText (string_of_list_byte [x20; x0a])) None].
Proof. repeat split; by vm_compute. Qed.

(** * Request filtering *)

Lemma request_filtered_bound (a : Analyzer) (flow : Flow) :
  filtered_count a < 10 → filtered_count (request a flow).1 < 10.
Proof.
  intros H. unfold request.
  destruct (negb (is_cursor_api flow)); [done|]. cbn [request_count filtered_count filter_mode].
  destruct (negb _); [|simpl; lia].
  cbn [filtered_count].
  destruct (Nat.eqb_spec ((filtered_count a + 1) mod 10) 0) as [E|E];
    cbn [fst filtered_count log_filtered_summary]; [lia|].
  destruct (Nat.eq_dec (filtered_count a) 9) as [E9|]; [|lia].
  rewrite E9 in E. by simpl in E.
Qed.

(** X23.  The counter of hidden requests stays below ten: the handler
    resets it whenever it reaches a multiple of ten and whenever a
    request is shown, so after any sequence of requests it is at most
    9. *)
Theorem filtered_count_bounded (a : Analyzer) (flows : list Flow) :
  filtered_count a < 10 →
  filtered_count (request_all a flows).1 < 10.
Proof.
  revert a. induction flows as [|flow flows IH]; intros a H; [done|].
  cbn [request_all].
  pose proof (request_filtered_bound a flow H) as H1.
  destruct (request a flow) as [a1 flow1]. cbn [fst] in H1.
  specialize (IH a1 H1).
  by destruct (request_all a1 flows) as [a2 rest2].
Qed.

Lemma filtered_count_bounded_witness :
  filtered_count
    (request_all (mkAnalyzer 0 9 "quiet")
       [mkFlow "api2.cursor.sh" "/GetTeamHooks" None None]).1 < 10.
Proof.
  apply (filtered_count_bounded (mkAnalyzer 0 9 "quiet")
           [mkFlow "api2.cursor.sh" "/GetTeamHooks" None None]).
  simpl. lia.
Defined.

Lemma request_count_step (a : Analyzer) (flow : Flow) :
  cursor_req_id flow = None →
  (is_cursor_api flow = true →
   request_count (request a flow).1 = request_count a + 1
   ∧ cursor_req_id (request a flow).2 = Some (request_count a + 1))
  ∧ (is_cursor_api flow = false → request a flow = (a, flow)).
Proof.
  intros Hid. unfold request. split; intros ->; cbn [negb]; [|done].
  cbn [request_count filtered_count filter_mode].
  destruct (negb _); [|done].
  by destruct (_ =? _).
Qed.

(** X24.  Request ids are consecutive.  Over any sequence of fresh
    flows, the handler numbers the requests to a cursor.sh host
    [count + 1, count + 2, ...] in arrival order, leaves the other
    flows without an id, and ends with the counter advanced by the
    number of cursor.sh requests, whether they were shown or hidden. *)
Theorem request_ids_consecutive (a : Analyzer) (flows : list Flow) :
  Forall (λ flow, cursor_req_id flow = None) flows →
  request_count (request_all a flows).1
  = request_count a + length (List.filter is_cursor_api flows)
  ∧ omap cursor_req_id (request_all a flows).2
    = seq (request_count a + 1) (length (List.filter is_cursor_api flows)).
Proof.
  intros Hall. revert a.
  induction Hall as [|flow flows Hflow _ IH]; intros a.
  { simpl. split; [lia|done]. }
  cbn [request_all List.filter].
  destruct (request_count_step a flow Hflow) as [Hyes Hno].
  destruct (is_cursor_api flow) eqn:Ec.
  - destruct (Hyes eq_refl) as [Hc Hi].
    destruct (request a flow) as [a1 flow1]. cbn [fst snd] in *.
    specialize (IH a1).
    destruct (request_all a1 flows) as [a2 rest2]. cbn [fst snd] in *.
    destruct IH as [IH1 IH2]. rewrite IH1, Hc. cbn [length].
    split; [lia|]. cbn [omap list_omap seq]. rewrite Hi.
    cbn. f_equal. rewrite IH2, Hc. f_equal. lia.
  - rewrite (Hno eq_refl). specialize (IH a).
    destruct (request_all a flows) as [a2 rest2]. cbn [fst snd] in *.
    destruct IH as [IH1 IH2]. split; [done|].
    cbn [omap list_omap]. by rewrite Hflow.
Qed.

Lemma request_ids_consecutive_witness :
  request_count
    (request_all (mkAnalyzer 5 0 "smart")
       [mkFlow "api2.cursor.sh" "/GetTeamHooks" None None;
        mkFlow "example.org" "/RunSSE" None None;
        mkFlow "api2.cursor.sh" "/RunSSE" None None]).1
  = 5 + 2
  ∧ omap cursor_req_id
      (request_all (mkAnalyzer 5 0 "smart")
         [mkFlow "api2.cursor.sh" "/GetTeamHooks" None None;
          mkFlow "example.org" "/RunSSE" None None;
          mkFlow "api2.cursor.sh" "/RunSSE" None None]).2
    = [6; 7].
Proof.
  apply (request_ids_consecutive (mkAnalyzer 5 0 "smart")
           [mkFlow "api2.cursor.sh" "/GetTeamHooks" None None;
            mkFlow "example.org" "/RunSSE" None None;
            mkFlow "api2.cursor.sh" "/RunSSE" None None]).
  by repeat constructor.
Defined.

(** X25.  AI conversations are never hidden.  A request to a cursor.sh
    host whose path contains RunSSE, BidiAppend or BidiService is marked
    to be shown in every filter mode, quiet included, and resets the
    counter of hidden requests; in quiet mode every other cursor.sh
    request is marked hidden. *)
Theorem ai_conversation_always_shown (a : Analyzer) (flow : Flow) :
  is_cursor_api flow = true →
  (is_ai_conversation (path flow) = true →
   cursor_show (request a flow).2 = Some true
   ∧ filtered_count (request a flow).1 = 0)
  ∧ (is_ai_conversation (path flow) = false →
     filter_mode a = "quiet" →
     cursor_show (request a flow).2 = Some false).
Proof.
  intros Hc. unfold request. rewrite Hc. cbn [negb].
  cbn [request_count filtered_count filter_mode].
  split.
  - intros ->. by cbn.
  - intros -> ->. cbn [should_show String.eqb Ascii.eqb Bool.eqb negb].
    by destruct (_ =? _).
Qed.

Lemma ai_conversation_always_shown_witness :
  (is_ai_conversation "/agent.v1.AgentService/RunSSE" = true →
   cursor_show
     (request (mkAnalyzer 0 3 "quiet")
        (mkFlow "api2.cursor.sh" "/agent.v1.AgentService/RunSSE" None None)).2
   = Some true
   ∧ filtered_count
       (request (mkAnalyzer 0 3 "quiet")
          (mkFlow "api2.cursor.sh" "/agent.v1.AgentService/RunSSE" None
             None)).1 = 0)
  ∧ (is_ai_conversation "/agent.v1.AgentService/RunSSE" = false →
     "quiet" = "quiet" →
     cursor_show
       (request (mkAnalyzer 0 3 "quiet")
          (mkFlow "api2.cursor.sh" "/agent.v1.AgentService/RunSSE" None
             None)).2
     = Some false).
Proof.
  apply (ai_conversation_always_shown (mkAnalyzer 0 3 "quiet")
           (mkFlow "api2.cursor.sh" "/agent.v1.AgentService/RunSSE" None
              None)).
  reflexivity.
Defined.

Lemma prefix_spec (needle : string) :
  ∀ hay, String.prefix needle hay = true ↔ ∃ post, hay = needle +:+ post.
Proof.
  induction needle as [|a needle IH]; intros hay.
  - split; [intros _; exists hay; reflexivity|].
    intros _. by destruct hay.
  - destruct hay as [|b hay]; simpl.
    + split; [done|]. intros [post E]; discriminate E.
    + destruct (Ascii.ascii_dec a b) as [->|Hne].
      * rewrite IH. split; intros [post E]; exists post; [by rewrite E|].
        by injection E as E.
      * split; [done|]. intros [post E]. injection E as E1 E2.
        by destruct Hne.
Qed.

(** [str_contains] is the substring test: the needle occurs somewhere
    in the haystack. *)
Lemma str_contains_spec (needle hay : string) :
  str_contains needle hay = true
  ↔ ∃ pre post, hay = pre +:+ needle +:+ post.
Proof.
  induction hay as [|b hay IH]; cbn [str_contains].
  - rewrite orb_false_r, prefix_spec. split.
    + intros [post E]. by exists EmptyString, post.
    + intros (pre & post & E). destruct pre as [|? ?]; [eauto|done].
  - rewrite orb_true_iff, prefix_spec, IH. split.
    + intros [[post E] | (pre & post & E)].
      * by exists EmptyString, post.
      * exists (String b pre), post. simpl. by rewrite E.
    + intros (pre & post & E). destruct pre as [|c pre].
      * left. eauto.
      * right. injection E as -> E. eauto.
Qed.

Lemma contains_any_spec (names : list string) (endpoint : string) :
  contains_any names endpoint = true
  ↔ ∃ name pre post, name ∈ names ∧ endpoint = pre +:+ name +:+ post.
Proof.
  unfold contains_any. rewrite existsb_exists. split.
  - intros (name & Hin & Hc). apply str_contains_spec in Hc as (pre & post & E).
    exists name, pre, post. split; [by apply list_elem_of_In | done].
  - intros (name & pre & post & Hin & E). exists name.
    split; [by apply list_elem_of_In|]. apply str_contains_spec. eauto.
Qed.

(** X26.  The filter modes.  Mode all shows every endpoint and mode
    quiet none.  Mode smart hides an endpoint exactly when one of the
    noise names occurs in it, mode ai shows it exactly when one of the
    AI names occurs in it, and any other mode string shows
    everything. *)
Theorem should_show_modes (endpoint : string) :
  should_show "all" endpoint = true
  ∧ should_show "quiet" endpoint = false
  ∧ (should_show "smart" endpoint = false
     ↔ ∃ name pre post,
         name ∈ NOISE_ENDPOINTS ∧ endpoint = pre +:+ name +:+ post)
  ∧ (should_show "ai" endpoint = true
     ↔ ∃ name pre post,
         name ∈ AI_ENDPOINTS ∧ endpoint = pre +:+ name +:+ post)
  ∧ (∀ mode,
       mode ≠ "all" → mode ≠ "quiet" → mode ≠ "ai" → mode ≠ "smart" →
       should_show mode endpoint = true).
Proof.
  split; [done|]. split; [done|]. split; [|split].
  - rewrite <- contains_any_spec.
    change (should_show "smart" endpoint)
      with (negb (contains_any NOISE_ENDPOINTS endpoint)).
    by destruct (contains_any NOISE_ENDPOINTS endpoint).
  - rewrite <- contains_any_spec. done.
  - intros mode H1 H2 H3 H4. unfold should_show.
    destruct (String.eqb_spec mode "all"); [done|].
    destruct (String.eqb_spec mode "quiet"); [done|].
    destruct (String.eqb_spec mode "ai"); [done|].
    by destruct (String.eqb_spec mode "smart").
Qed.

(** X27.  The decoder does not wrap at 64 bits.  Python integers are
    unbounded, so the round trip holds for every non-negative value,
    however many bytes its encoding takes: a varint of more than ten
    bytes decodes to its full value instead of being truncated. *)
Theorem varint_roundtrip_unbounded (v : Z) (pre post : list byte) :
  (0 ≤ v)%Z →
  parse_varint (pre ++ encode_varint v ++ post) (length pre)
  = Some (v, length pre + length (encode_varint v)).
Proof.
  intros Hv. rewrite parse_varint_drop, drop_app_length.
  by rewrite varint_scan_encode_varint.
Qed.

Lemma varint_roundtrip_unbounded_witness :
  parse_varint ([x08] ++ encode_varint (2 ^ 70 + 1) ++ []) 1
  = Some ((2 ^ 70 + 1)%Z, 1 + length (encode_varint (2 ^ 70 + 1))).
Proof. apply (varint_roundtrip_unbounded (2 ^ 70 + 1) [x08] []). lia. Defined.
